(** * The connection pool and its background health monitor

    A shallow embedding of [internal/database/pool.go] together with the
    parts of [internal/database/database.go] and [internal/config/config.go]
    that the pool calls, followed by the properties of the pool's
    specification.

    Conventions of the embedding.
    - Go's [int] and [int64] are 64-bit two's complement integers: a [Z]
      with the wrap-around of [++] written out ([int_incr]).
    - [time.Time] is a number of nanoseconds, [time.Duration] the saturating
      difference of two instants ([Time_Sub]).
    - [*sql.DB] is [option Handle]: [None] is the nil pointer and a handle is
      the identity of an opened database object.
    - The collaborators of the pool (the clock, the credential manager, the
      SQL driver, Go's unspecified iteration order over a map) are oracles of
      an environment [Env], indexed by the number of calls made so far; every
      theorem quantifies over the environment.
    - Every public method holds the pool mutex, or the mutex of the entry it
      mutates, for its whole critical section; one call is one atomic
      transition of the state [Sys].  The monitor gives up the pool mutex
      between the checks of one pass, so the transition relation [step] has
      its steps one at a time as well as a whole pass.  The registry stores
      pointers, and inside one such transition the registry slot and the
      local variable are the only aliases of an entry, so a write through
      the pointer is a write to the slot.
    - [log.Printf] calls are not modelled. *)

From stdpp Require Import gmap strings list fin_maps pretty.
From Stdlib Require Import ZArith Lia.

Local Open Scope Z_scope.

(** ** Go values *)

Definition MaxInt64 : Z := 2 ^ 63 - 1.
Definition MinInt64 : Z := - 2 ^ 63.

(** Reduction of an integer to the range of [int64]. *)
Definition wrap64 (z : Z) : Z := (z + 2 ^ 63) mod 2 ^ 64 - 2 ^ 63.

(** [x++] on an [int] or [int64]. *)
Definition int_incr (x : Z) : Z := wrap64 (x + 1).

Definition Time : Type := Z.
Definition Duration : Type := Z.

(** The zero value [time.Time{}]. *)
Definition zeroTime : Time := 0.

(** [t.Sub(u)]: the difference, saturated to the range of a [Duration]. *)
Definition Time_Sub (t u : Time) : Duration :=
  Z.max MinInt64 (Z.min MaxInt64 (t - u)).

(** Go's [error] values: a plain message, or a message wrapping a cause with
    the [%w] verb of [fmt.Errorf]. *)
Inductive error : Type :=
| errors_New (msg : string)
| Errorf_w (msg : string) (cause : error).

Fixpoint error_Error (e : error) : string :=
  match e with
  | errors_New msg => msg
  | Errorf_w msg cause => msg +:+ ": " +:+ error_Error cause
  end.

Definition errors_Unwrap (e : error) : option error :=
  match e with
  | errors_New _ => None
  | Errorf_w _ cause => Some cause
  end.

#[global] Instance error_eq_dec : EqDecision error.
Proof. solve_decision. Defined.

(** [errors.Is]: [target] occurs on the chain of causes of [e]. *)
Fixpoint errors_Is (e target : error) : bool :=
  bool_decide (e = target) ||
  match e with
  | errors_New _ => false
  | Errorf_w _ cause => errors_Is cause target
  end.

(** A Go call that returns [(value, error)]. *)
Inductive result (A : Type) : Type :=
| Ok (a : A)
| Err (err : error).
Arguments Ok {A} a.
Arguments Err {A} err.

Definition Handle : Type := nat.

(** ** Package [config] *)

Module config.

Record Connection : Type := {
  Type_ : string;
  Host : string;
  Port : Z;
  Database : string;
  SSLMode : string;
  Username : string
}.

Record ConnectionPoolSettings : Type := {
  PingInterval : Duration;
  MaxIdleTime : Duration;
  MaxErrorCount : Z;
  ReconnectDelay : Duration;
  EnableKeepalive : bool
}.

(** Of [Settings] only the pool's part is kept. *)
Record Settings : Type := {
  ConnectionPool : ConnectionPoolSettings
}.

Record Config : Type := {
  Connections : gmap string Connection;
  Settings_ : Settings
}.

Definition GetConnection (c : Config) (name : string) : option Connection :=
  Connections c !! name.

End config.

(** ** Package [database]: the data model *)

Inductive ConnectionState : Type :=
| StateDisconnected
| StateConnecting
| StateConnected
| StateError
| StateIdle.

#[global] Instance ConnectionState_eq_dec : EqDecision ConnectionState.
Proof. solve_decision. Defined.

Definition ConnectionState_String (s : ConnectionState) : string :=
  match s with
  | StateDisconnected => "disconnected"
  | StateConnecting => "connecting"
  | StateConnected => "connected"
  | StateError => "error"
  | StateIdle => "idle"
  end.

Module PooledConnection.

Record t : Type := {
  Name : string;
  DB : option Handle;
  Config : config.Connection;
  State : ConnectionState;
  LastUsed : Time;
  LastPing : Time;
  ErrorCount : Z;
  CreatedAt : Time
}.

Definition set_DB (c : t) (db : option Handle) : t :=
  {| Name := Name c; DB := db; Config := Config c; State := State c;
     LastUsed := LastUsed c; LastPing := LastPing c;
     ErrorCount := ErrorCount c; CreatedAt := CreatedAt c |}.

Definition set_State (c : t) (s : ConnectionState) : t :=
  {| Name := Name c; DB := DB c; Config := Config c; State := s;
     LastUsed := LastUsed c; LastPing := LastPing c;
     ErrorCount := ErrorCount c; CreatedAt := CreatedAt c |}.

Definition set_LastUsed (c : t) (u : Time) : t :=
  {| Name := Name c; DB := DB c; Config := Config c; State := State c;
     LastUsed := u; LastPing := LastPing c;
     ErrorCount := ErrorCount c; CreatedAt := CreatedAt c |}.

Definition set_LastPing (c : t) (u : Time) : t :=
  {| Name := Name c; DB := DB c; Config := Config c; State := State c;
     LastUsed := LastUsed c; LastPing := u;
     ErrorCount := ErrorCount c; CreatedAt := CreatedAt c |}.

Definition set_ErrorCount (c : t) (n : Z) : t :=
  {| Name := Name c; DB := DB c; Config := Config c; State := State c;
     LastUsed := LastUsed c; LastPing := LastPing c;
     ErrorCount := n; CreatedAt := CreatedAt c |}.

End PooledConnection.

Module ConnectionStatus.

Record t : Type := {
  Name : string;
  State : ConnectionState;
  LastUsed : Time;
  LastPing : Time;
  ErrorCount : Z;
  CreatedAt : Time;
  IdleTime : Duration;
  ConnectedFor : Duration
}.

End ConnectionStatus.

Module PoolMetrics.

Record t : Type := {
  TotalConnections : Z;
  ActiveConnections : Z;
  ConnectedCount : Z;
  ErrorCount : Z;
  SuccessfulPings : Z;
  FailedPings : Z;
  PingInterval : Duration;
  MaxIdleTime : Duration
}.

End PoolMetrics.

(** Of [Manager] the pool reads the static configuration; its credential
    manager is an oracle of the environment. *)
Record Manager : Type := {
  config : config.Config
}.

Record ConnectionPool : Type := {
  connections : gmap string PooledConnection.t;
  manager : Manager;
  cancelled : bool;
  pingInterval : Duration;
  maxIdleTime : Duration;
  maxErrorCount : Z;
  reconnectDelay : Duration;
  totalConnections : Z;
  successfulPings : Z;
  failedPings : Z
}.

Definition set_connections (p : ConnectionPool)
    (m : gmap string PooledConnection.t) : ConnectionPool :=
  {| connections := m; manager := manager p; cancelled := cancelled p;
     pingInterval := pingInterval p; maxIdleTime := maxIdleTime p;
     maxErrorCount := maxErrorCount p; reconnectDelay := reconnectDelay p;
     totalConnections := totalConnections p;
     successfulPings := successfulPings p; failedPings := failedPings p |}.

Definition set_cancelled (p : ConnectionPool) (b : bool) : ConnectionPool :=
  {| connections := connections p; manager := manager p; cancelled := b;
     pingInterval := pingInterval p; maxIdleTime := maxIdleTime p;
     maxErrorCount := maxErrorCount p; reconnectDelay := reconnectDelay p;
     totalConnections := totalConnections p;
     successfulPings := successfulPings p; failedPings := failedPings p |}.

Definition set_totalConnections (p : ConnectionPool) (n : Z) : ConnectionPool :=
  {| connections := connections p; manager := manager p;
     cancelled := cancelled p;
     pingInterval := pingInterval p; maxIdleTime := maxIdleTime p;
     maxErrorCount := maxErrorCount p; reconnectDelay := reconnectDelay p;
     totalConnections := n;
     successfulPings := successfulPings p; failedPings := failedPings p |}.

Definition set_successfulPings (p : ConnectionPool) (n : Z) : ConnectionPool :=
  {| connections := connections p; manager := manager p;
     cancelled := cancelled p;
     pingInterval := pingInterval p; maxIdleTime := maxIdleTime p;
     maxErrorCount := maxErrorCount p; reconnectDelay := reconnectDelay p;
     totalConnections := totalConnections p;
     successfulPings := n; failedPings := failedPings p |}.

Definition set_failedPings (p : ConnectionPool) (n : Z) : ConnectionPool :=
  {| connections := connections p; manager := manager p;
     cancelled := cancelled p;
     pingInterval := pingInterval p; maxIdleTime := maxIdleTime p;
     maxErrorCount := maxErrorCount p; reconnectDelay := reconnectDelay p;
     totalConnections := totalConnections p;
     successfulPings := successfulPings p; failedPings := n |}.

(** ** The environment and the state of the system *)

Record Credential : Type := {
  cred_Username : string;
  cred_Password : string
}.

(** The calls the pool makes to its collaborators, each with what it
    returned, in program order.  [EvRemoved] is a ghost event: it marks the
    [delete] of a registry key. *)
Inductive Event : Type :=
| EvGet (connectionName username : string) (r : result Credential)
| EvOpen (driverName dsn : string) (r : result Handle)
| EvConfigure (h : Handle) (idle : Duration)
| EvPing (h : Handle) (r : option error)
| EvClose (h : Handle) (r : option error)
| EvRemoved (name : string).

Record Env : Type := {
  (** [time.Now()] *)
  env_Now : nat → Time;
  (** [credManager.Get(connectionName, username)] *)
  env_Get : nat → string → string → result Credential;
  (** [sql.Open(driverName, dsn)]: the error, if any *)
  env_Open : nat → string → string → option error;
  (** [db.Ping()] and [db.PingContext(ctx)] *)
  env_Ping : nat → Handle → option error;
  (** [db.Close()] *)
  env_Close : nat → Handle → option error;
  (** the order in which a [range] visits the entries of the registry *)
  env_range : nat → list (string * PooledConnection.t) →
              list (string * PooledConnection.t);
  env_range_perm : ∀ k l, env_range k l ≡ₚ l
}.

Record Sys : Type := {
  pool : ConnectionPool;
  tick : nat;
  trace : list Event
}.

Definition M (A : Type) : Type := Sys → A * Sys.

Definition ret {A : Type} (a : A) : M A := fun s => (a, s).

Definition bind {A B : Type} (m : M A) (k : A → M B) : M B :=
  fun s => let '(a, s') := m s in k a s'.

Notation "x <- m ;; k" := (bind m (fun x => k))
  (at level 100, m at next level, right associativity).
Notation "m ;;; k" := (bind m (fun _ => k))
  (at level 100, right associativity).

Definition get_pool : M ConnectionPool := fun s => (pool s, s).

Definition modify_pool (f : ConnectionPool → ConnectionPool) : M unit :=
  fun s => (tt, {| pool := f (pool s); tick := tick s; trace := trace s |}).

Definition next_tick : M nat :=
  fun s => (tick s, {| pool := pool s; tick := S (tick s); trace := trace s |}).

Definition emit (e : Event) : M unit :=
  fun s => (tt, {| pool := pool s; tick := tick s; trace := trace s ++ [e] |}).

Fixpoint forM_ {A : Type} (l : list A) (f : A → M unit) : M unit :=
  match l with
  | [] => ret tt
  | a :: l' => f a ;;; forM_ l' f
  end.

Fixpoint mapM {A B : Type} (l : list A) (f : A → M B) : M (list B) :=
  match l with
  | [] => ret []
  | a :: l' => b <- f a ;; bs <- mapM l' f ;; ret (b :: bs)
  end.

(** ** Package [database]: the operations *)

Section Pool.

Context (env : Env).

(** *** Calls to the collaborators *)

Definition time_Now : M Time :=
  k <- next_tick ;; ret (env_Now env k).

Definition time_Since (t : Time) : M Duration :=
  now <- time_Now ;; ret (Time_Sub now t).

Definition credManager_Get (connectionName username : string)
    : M (result Credential) :=
  k <- next_tick ;;
  let r := env_Get env k connectionName username in
  emit (EvGet connectionName username r) ;;; ret r.

(** A successful [sql.Open] returns a new object: its identity is the tick
    of the call, which no earlier handle has. *)
Definition sql_Open (driverName dsn : string) : M (result Handle) :=
  k <- next_tick ;;
  let r := match env_Open env k driverName dsn with
           | Some err => Err err
           | None => Ok k
           end in
  emit (EvOpen driverName dsn r) ;;; ret r.

Definition DB_Ping (db : Handle) : M (option error) :=
  k <- next_tick ;;
  let r := env_Ping env k db in
  emit (EvPing db r) ;;; ret r.

Definition DB_Close (db : Handle) : M (option error) :=
  k <- next_tick ;;
  let r := env_Close env k db in
  emit (EvClose db r) ;;; ret r.

(** [db.SetMaxOpenConns(10)], [db.SetMaxIdleConns(5)],
    [db.SetConnMaxLifetime(time.Hour)], [db.SetConnMaxIdleTime(idle)]. *)
Definition DB_configure (db : Handle) (idle : Duration) : M unit :=
  emit (EvConfigure db idle).

(** [for name, conn := range p.connections]: the entries, in an order the
    environment chooses. *)
Definition range_connections : M (list (string * PooledConnection.t)) :=
  p <- get_pool ;;
  k <- next_tick ;;
  ret (env_range env k (map_to_list (connections p))).

(** [p.connections[name] = conn] *)
Definition store (name : string) (conn : PooledConnection.t) : M unit :=
  modify_pool (fun p => set_connections p (<[name := conn]> (connections p))).

(** A write through the pointer held in [p.connections[name]]. *)
Definition update (name : string)
    (f : PooledConnection.t → PooledConnection.t) : M unit :=
  modify_pool (fun p => set_connections p (alter f name (connections p))).

(** *** [database.go] *)

Definition buildDSN (conn : config.Connection) (username password : string)
    : result string :=
  if String.eqb (config.Type_ conn) "mysql" then
    if String.eqb username "" then
      Ok ("tcp(" +:+ config.Host conn +:+ ":" +:+ pretty (config.Port conn)
          +:+ ")/" +:+ config.Database conn)
    else
      Ok (username +:+ ":" +:+ password +:+ "@tcp(" +:+ config.Host conn
          +:+ ":" +:+ pretty (config.Port conn) +:+ ")/"
          +:+ config.Database conn)
  else if String.eqb (config.Type_ conn) "postgres" then
    let dsn := "host=" +:+ config.Host conn +:+ " port="
               +:+ pretty (config.Port conn) +:+ " dbname="
               +:+ config.Database conn in
    let dsn := if negb (String.eqb username "")
               then dsn +:+ " user=" +:+ username +:+ " password=" +:+ password
               else dsn in
    let dsn := if negb (String.eqb (config.SSLMode conn) "")
               then dsn +:+ " sslmode=" +:+ config.SSLMode conn
               else dsn +:+ " sslmode=prefer" in
    Ok dsn
  else
    Err (errors_New ("unsupported database type: " +:+ config.Type_ conn)).

Definition createRawConnection (connConfig : config.Connection)
    (connectionName : string) : M (result Handle) :=
  creds <-
    (if negb (String.eqb (config.Username connConfig) "") then
       r <- credManager_Get connectionName (config.Username connConfig) ;;
       match r with
       | Err err =>
           ret (Err (Errorf_w ("failed to get credentials for connection '"
                               +:+ connectionName +:+ "'") err))
       | Ok cred => ret (Ok (cred_Username cred, cred_Password cred))
       end
     else ret (Ok (""%string, ""%string))) ;;
  match creds with
  | Err err => ret (Err err)
  | Ok (username, password) =>
      match buildDSN connConfig username password with
      | Err err =>
          ret (Err (Errorf_w "failed to build connection string" err))
      | Ok dsn =>
          r <- sql_Open (config.Type_ connConfig) dsn ;;
          match r with
          | Err err =>
              ret (Err (Errorf_w "failed to open database connection" err))
          | Ok db => ret (Ok db)
          end
      end
  end.

(** *** [pool.go] *)

Definition NewConnectionPool (manager : Manager) : ConnectionPool :=
  let poolConfig := config.ConnectionPool (config.Settings_ (config manager)) in
  {| connections := ∅;
     manager := manager;
     cancelled := false;
     pingInterval := config.PingInterval poolConfig;
     maxIdleTime := config.MaxIdleTime poolConfig;
     maxErrorCount := config.MaxErrorCount poolConfig;
     reconnectDelay := config.ReconnectDelay poolConfig;
     totalConnections := 0;
     successfulPings := 0;
     failedPings := 0 |}.

(** The two statements [State = StateError; ErrorCount++] of both failure
    branches of [createConnection]. *)
Definition mark_failed (c : PooledConnection.t) : PooledConnection.t :=
  let c := PooledConnection.set_State c StateError in
  PooledConnection.set_ErrorCount c (int_incr (PooledConnection.ErrorCount c)).

Definition createConnection (connectionName : string) : M (result Handle) :=
  p <- get_pool ;;
  match config.GetConnection (config (manager p)) connectionName with
  | None =>
      ret (Err (errors_New ("connection '" +:+ connectionName
                            +:+ "' not found in configuration")))
  | Some connConfig =>
      createdAt <- time_Now ;;
      lastUsed <- time_Now ;;
      let pooledConn :=
        {| PooledConnection.Name := connectionName;
           PooledConnection.DB := None;
           PooledConnection.Config := connConfig;
           PooledConnection.State := StateConnecting;
           PooledConnection.LastUsed := lastUsed;
           PooledConnection.LastPing := zeroTime;
           PooledConnection.ErrorCount := 0;
           PooledConnection.CreatedAt := createdAt |} in
      store connectionName pooledConn ;;;
      r <- createRawConnection connConfig connectionName ;;
      match r with
      | Err err =>
          update connectionName mark_failed ;;;
          ret (Err err)
      | Ok db =>
          DB_configure db (maxIdleTime p) ;;;
          pingErr <- DB_Ping db ;;
          match pingErr with
          | Some err =>
              DB_Close db ;;;
              update connectionName mark_failed ;;;
              ret (Err (Errorf_w "failed to ping database" err))
          | None =>
              now <- time_Now ;;
              update connectionName (fun c =>
                let c := PooledConnection.set_DB c (Some db) in
                let c := PooledConnection.set_State c StateConnected in
                let c := PooledConnection.set_LastPing c now in
                PooledConnection.set_ErrorCount c 0) ;;;
              modify_pool (fun p =>
                set_totalConnections p (int_incr (totalConnections p))) ;;;
              ret (Ok db)
          end
      end
  end.

Definition GetConnection (connectionName : string) : M (result Handle) :=
  p <- get_pool ;;
  healthy <-
    match connections p !! connectionName with
    | Some conn =>
        now <- time_Now ;;
        update connectionName (fun c => PooledConnection.set_LastUsed c now) ;;;
        if bool_decide (PooledConnection.State conn = StateConnected)
           && bool_decide (PooledConnection.DB conn ≠ None)
        then ret (PooledConnection.DB conn)
        else ret None
    | None => ret None
    end ;;
  match healthy with
  | Some db => ret (Ok db)
  | None => createConnection connectionName
  end.

(** [checkConnection(conn)]: the entry behind the pointer goes in, the entry
    as the call leaves it comes out.  After the guard the handle is not nil,
    so the last branch of the [match] is never taken. *)
Definition checkConnection (conn : PooledConnection.t)
    : M PooledConnection.t :=
  if bool_decide (PooledConnection.DB conn = None)
     || bool_decide (PooledConnection.State conn = StateError)
  then ret conn
  else
    match PooledConnection.DB conn with
    | Some db =>
        pingErr <- DB_Ping db ;;
        match pingErr with
        | Some err =>
            let conn := PooledConnection.set_State conn StateError in
            let conn := PooledConnection.set_ErrorCount conn
                          (int_incr (PooledConnection.ErrorCount conn)) in
            modify_pool (fun p =>
              set_failedPings p (int_incr (failedPings p))) ;;;
            p <- get_pool ;;
            if bool_decide (PooledConnection.ErrorCount conn >= maxErrorCount p)
            then
              DB_Close db ;;;
              let conn := PooledConnection.set_DB conn None in
              ret (PooledConnection.set_State conn StateDisconnected)
            else ret conn
        | None =>
            now <- time_Now ;;
            let conn := PooledConnection.set_LastPing conn now in
            let conn :=
              if bool_decide (PooledConnection.State conn = StateError)
              then PooledConnection.set_State conn StateConnected
              else conn in
            let conn := PooledConnection.set_ErrorCount conn 0 in
            modify_pool (fun p =>
              set_successfulPings p (int_incr (successfulPings p))) ;;;
            ret conn
        end
    | None => ret conn
    end.

(** One iteration of the second loop of [cleanupIdleConnections]. *)
Definition removeConnection (name : string) : M unit :=
  p <- get_pool ;;
  match connections p !! name with
  | Some conn =>
      match PooledConnection.DB conn with
      | Some db => DB_Close db ;;; ret tt
      | None => ret tt
      end ;;;
      modify_pool (fun p => set_connections p (delete name (connections p))) ;;;
      emit (EvRemoved name)
  | None => ret tt
  end.

Definition shouldRemove (p : ConnectionPool) (now : Time)
    (conn : PooledConnection.t) : bool :=
  bool_decide (Time_Sub now (PooledConnection.LastUsed conn) > maxIdleTime p)
  && negb (bool_decide (PooledConnection.State conn = StateConnected)).

Definition cleanupIdleConnections : M unit :=
  now <- time_Now ;;
  p <- get_pool ;;
  conns <- range_connections ;;
  let toRemove :=
    (filter (fun nc => shouldRemove p now nc.2 = true) conns).*1 in
  forM_ toRemove removeConnection.

(** [p.checkConnection(conn)] on the pointer the registry holds under
    [name]: the writes of the call land in the registry slot. *)
Definition checkEntry (name : string) : M unit :=
  p <- get_pool ;;
  match connections p !! name with
  | Some conn => conn' <- checkConnection conn ;; store name conn'
  | None => ret tt
  end.

(** The first loop of [healthCheck] runs on the pointers of the snapshot;
    each pointer is the one the registry holds under that name. *)
Definition healthCheck : M unit :=
  conns <- range_connections ;;
  forM_ conns.*1 checkEntry ;;;
  cleanupIdleConnections.

Definition statusOf (conn : PooledConnection.t) : M ConnectionStatus.t :=
  idleTime <- time_Since (PooledConnection.LastUsed conn) ;;
  connectedFor <- time_Since (PooledConnection.CreatedAt conn) ;;
  ret {| ConnectionStatus.Name := PooledConnection.Name conn;
         ConnectionStatus.State := PooledConnection.State conn;
         ConnectionStatus.LastUsed := PooledConnection.LastUsed conn;
         ConnectionStatus.LastPing := PooledConnection.LastPing conn;
         ConnectionStatus.ErrorCount := PooledConnection.ErrorCount conn;
         ConnectionStatus.CreatedAt := PooledConnection.CreatedAt conn;
         ConnectionStatus.IdleTime := idleTime;
         ConnectionStatus.ConnectedFor := connectedFor |}.

Definition GetConnectionStatus (connectionName : string)
    : M ConnectionStatus.t :=
  p <- get_pool ;;
  match connections p !! connectionName with
  | None =>
      ret {| ConnectionStatus.Name := connectionName;
             ConnectionStatus.State := StateDisconnected;
             ConnectionStatus.LastUsed := zeroTime;
             ConnectionStatus.LastPing := zeroTime;
             ConnectionStatus.ErrorCount := 0;
             ConnectionStatus.CreatedAt := zeroTime;
             ConnectionStatus.IdleTime := 0;
             ConnectionStatus.ConnectedFor := 0 |}
  | Some conn => statusOf conn
  end.

Definition GetAllConnectionStatus : M (list ConnectionStatus.t) :=
  conns <- range_connections ;;
  mapM conns.*2 statusOf.

(** The loop of [GetPoolMetrics] over the local counters
    [(connected, errors)]. *)
Definition countStates (conns : list PooledConnection.t) : Z * Z :=
  foldl (fun acc conn =>
           if bool_decide (PooledConnection.State conn = StateConnected)
           then (int_incr acc.1, acc.2)
           else if bool_decide (PooledConnection.State conn = StateError)
           then (acc.1, int_incr acc.2)
           else acc)
        (0, 0) conns.

Definition GetPoolMetrics : M PoolMetrics.t :=
  p <- get_pool ;;
  conns <- range_connections ;;
  let counts := countStates conns.*2 in
  ret {| PoolMetrics.TotalConnections := totalConnections p;
         PoolMetrics.ActiveConnections := Z.of_nat (size (connections p));
         PoolMetrics.ConnectedCount := counts.1;
         PoolMetrics.ErrorCount := counts.2;
         PoolMetrics.SuccessfulPings := successfulPings p;
         PoolMetrics.FailedPings := failedPings p;
         PoolMetrics.PingInterval := pingInterval p;
         PoolMetrics.MaxIdleTime := maxIdleTime p |}.

Definition Close : M (option error) :=
  modify_pool (fun p => set_cancelled p true) ;;;
  conns <- range_connections ;;
  forM_ conns.*2 (fun conn =>
    match PooledConnection.DB conn with
    | Some db => DB_Close db ;;; ret tt
    | None => ret tt
    end) ;;;
  modify_pool (fun p => set_connections p ∅) ;;;
  ret None.

(** [Manager.TestConnection] *)
Definition TestConnection (connectionName : string) : M (option error) :=
  r <- GetConnection connectionName ;;
  match r with
  | Err err => ret (Some err)
  | Ok db => DB_Ping db
  end.

End Pool.

(** ** The states the program reaches *)

(** One atomic transition: a call of a public method by some caller, or a
    step of the background monitor, which runs only when keep-alive was
    enabled at construction.  The monitor takes a whole tick at once, or,
    interleaved with the callers, one check of an entry of the registry,
    one check of an entry a caller has replaced in the meantime (its writes
    reach the two ping counters only), or the idle-reap pass. *)
Inductive step (env : Env) (s : Sys) : Sys → Prop :=
| step_GetConnection name :
    step env s (GetConnection env name s).2
| step_TestConnection name :
    step env s (TestConnection env name s).2
| step_GetConnectionStatus name :
    step env s (GetConnectionStatus env name s).2
| step_GetAllConnectionStatus :
    step env s (GetAllConnectionStatus env s).2
| step_GetPoolMetrics :
    step env s (GetPoolMetrics env s).2
| step_Close :
    step env s (Close env s).2
| step_monitor :
    config.EnableKeepalive
      (config.ConnectionPool
         (config.Settings_ (config (manager (pool s))))) = true →
    step env s (healthCheck env s).2
| step_checkEntry name :
    config.EnableKeepalive
      (config.ConnectionPool
         (config.Settings_ (config (manager (pool s))))) = true →
    step env s (checkEntry env name s).2
| step_checkReplaced conn :
    config.EnableKeepalive
      (config.ConnectionPool
         (config.Settings_ (config (manager (pool s))))) = true →
    step env s (checkConnection env conn s).2
| step_cleanup :
    config.EnableKeepalive
      (config.ConnectionPool
         (config.Settings_ (config (manager (pool s))))) = true →
    step env s (cleanupIdleConnections env s).2.

Inductive reachable (env : Env) : Sys → Prop :=
| reachable_init mgr k :
    reachable env {| pool := NewConnectionPool mgr; tick := k; trace := [] |}
| reachable_step s s' :
    reachable env s → step env s s' → reachable env s'.

(** The entry of [name], if any, is not one [GetConnection] hands out. *)
Definition unhealthy (p : ConnectionPool) (name : string) : Prop :=
  ∀ conn, connections p !! name = Some conn →
          PooledConnection.State conn ≠ StateConnected
          ∨ PooledConnection.DB conn = None.

(** The number of entries of the registry in state [st]. *)
Definition countState (p : ConnectionPool) (st : ConnectionState) : nat :=
  size (filter (fun nc => PooledConnection.State nc.2 = st) (connections p)).

(** [n] calls of [GetConnection(name)] in a row, with their results. *)
Fixpoint GetConnection_times (env : Env) (n : nat) (name : string)
    : M (list (result Handle)) :=
  match n with
  | O => ret []
  | S n' =>
      r <- GetConnection env name ;;
      rs <- GetConnection_times env n' name ;;
      ret (r :: rs)
  end.

Definition is_Err {A : Type} (r : result A) : Prop :=
  match r with
  | Err _ => True
  | Ok _ => False
  end.

(** An operation that leaves the pool as it is. *)
Definition keeps_pool {A : Type} (m : M A) : Prop :=
  ∀ s, pool (m s).2 = pool s.

(** The pool belongs to the manager [mgr], and every key of its registry is
    a name of that manager's configuration. *)
Definition inv (mgr : Manager) (s : Sys) : Prop :=
  manager (pool s) = mgr
  ∧ ∀ name, is_Some (connections (pool s) !! name) →
            is_Some (config.GetConnection (config mgr) name).

(** The first statements of [GetConnection] on an entry it does not hand
    out: [LastUsed] is written, then the creation path is taken. *)
Definition touch (env : Env) (name : string) (s : Sys) : Sys :=
  match connections (pool s) !! name with
  | Some _ =>
      {| pool := set_connections (pool s)
                   (alter (fun c => PooledConnection.set_LastUsed c
                                      (env_Now env (tick s)))
                      name (connections (pool s)));
         tick := S (tick s);
         trace := trace s |}
  | None => s
  end.

(** The failure an event reports, if it is a failed credential resolution,
    a failed open or a failed ping. *)
Definition stepFailure (ev : Event) : option error :=
  match ev with
  | EvGet _ _ (Err cause) => Some cause
  | EvOpen _ _ (Err cause) => Some cause
  | EvPing _ (Some cause) => Some cause
  | _ => None
  end.

(** ** A concrete installation, to run the model on *)

Definition second : Duration := 1000000000.

Definition demoConnection : config.Connection :=
  {| config.Type_ := "mysql";
     config.Host := "localhost";
     config.Port := 3306;
     config.Database := "app";
     config.SSLMode := "";
     config.Username := "reader" |}.

Definition demoManager (maxErrors : Z) : Manager :=
  {| config :=
       {| config.Connections := {[ "db"%string := demoConnection ]};
          config.Settings_ :=
            {| config.ConnectionPool :=
                 {| config.PingInterval := 30 * second;
                    config.MaxIdleTime := 900 * second;
                    config.MaxErrorCount := maxErrors;
                    config.ReconnectDelay := 5 * second;
                    config.EnableKeepalive := true |} |} |} |}.

(** An environment whose clock advances one second per call, whose
    credential manager always answers, and whose driver fails to open at
    the ticks [openFails] and to ping at the ticks [pingFails]. *)
Definition demoEnv (openFails pingFails : nat → bool) : Env :=
  {| env_Now := fun k => Z.of_nat k * second;
     env_Get := fun _ _ username =>
       Ok {| cred_Username := username; cred_Password := "secret" |};
     env_Open := fun k _ _ =>
       if openFails k then Some (errors_New "connection refused") else None;
     env_Ping := fun k _ =>
       if pingFails k then Some (errors_New "bad connection") else None;
     env_Close := fun _ _ => None;
     env_range := fun _ l => l;
     env_range_perm := fun _ l => reflexivity l |}.

Definition never : nat → bool := fun _ => false.
Definition always : nat → bool := fun _ => true.
Definition at_tick (k : nat) : nat → bool := fun j => Nat.eqb j k.
Definition from_tick (k : nat) : nat → bool := fun j => Nat.leb k j.

Definition demoStart (maxErrors : Z) : Sys :=
  {| pool := NewConnectionPool (demoManager maxErrors);
     tick := 0;
     trace := [] |}.

(** The backend is up; it is up but fails the ping of tick 7, the first
    ping of the monitor after one creation; it refuses every open. *)
Definition upEnv : Env := demoEnv never never.
Definition flakyEnv : Env := demoEnv never (at_tick 7).
Definition downEnv : Env := demoEnv always never.

(** The backend is up for one creation and one pass of the monitor, and
    fails every ping from tick 11 on, the ticks of the later passes. *)
Definition dyingEnv : Env := demoEnv never (from_tick 11).

Definition demoEntry (name : string) (db : option Handle)
    (st : ConnectionState) (lastUsed lastPing : Time) (errors : Z)
    (createdAt : Time) : PooledConnection.t :=
  {| PooledConnection.Name := name;
     PooledConnection.DB := db;
     PooledConnection.Config := demoConnection;
     PooledConnection.State := st;
     PooledConnection.LastUsed := lastUsed;
     PooledConnection.LastPing := lastPing;
     PooledConnection.ErrorCount := errors;
     PooledConnection.CreatedAt := createdAt |}.

(** A registry with three entries, 2000 seconds after the start of the
    clock: [a] is Connected and was last used at the start, [b] is in state
    Error, still holds handle 2 and was last used at the start, [c] failed
    its creation 500 seconds ago. *)
Definition crowded : Sys :=
  {| pool :=
       set_connections (NewConnectionPool (demoManager 3))
         (<["a"%string := demoEntry "a" (Some 1%nat) StateConnected 0 0 0 0]>
            (<["b"%string :=
                 demoEntry "b" (Some 2%nat) StateError 0 0 1 0]>
               (<["c"%string :=
                    demoEntry "c" None StateError
                      (1500 * second) 0 1 (1500 * second)]> ∅)));
     tick := 2000;
     trace := [] |}.

(** ** More of the pool: what the later properties speak of *)

(** The handles an event list pings, and the handles it closes, in order. *)
Definition pinged (evs : list Event) : list Handle :=
  omap (fun ev => match ev with EvPing h _ => Some h | _ => None end) evs.

Definition closed (evs : list Event) : list Handle :=
  omap (fun ev => match ev with EvClose h _ => Some h | _ => None end) evs.

(** The events of the creation path only: a credential resolution, an
    open, the configuration of a new handle. *)
Definition isCreationEvent (ev : Event) : bool :=
  match ev with
  | EvGet _ _ _ | EvOpen _ _ _ | EvConfigure _ _ => true
  | _ => false
  end.

(** The handle [checkConnection] pings on an entry: the guard lets through
    the entries that hold a handle and are not in state Error. *)
Definition pingTarget (conn : PooledConnection.t) : option Handle :=
  if bool_decide (PooledConnection.State conn = StateError) then None
  else PooledConnection.DB conn.

(** The shapes an entry of the registry has in a reachable state. *)
Definition entry_shape (p : ConnectionPool) (name : string)
    (conn : PooledConnection.t) : Prop :=
  PooledConnection.Name conn = name
  ∧ config.GetConnection (config (manager p)) name
    = Some (PooledConnection.Config conn)
  ∧ ((PooledConnection.State conn = StateConnected
      ∧ PooledConnection.DB conn ≠ None
      ∧ PooledConnection.ErrorCount conn = 0)
     ∨ (PooledConnection.State conn = StateError
        ∧ PooledConnection.ErrorCount conn = 1
        ∧ (PooledConnection.DB conn ≠ None → 1 < maxErrorCount p))
     ∨ (PooledConnection.State conn = StateDisconnected
        ∧ PooledConnection.DB conn = None
        ∧ PooledConnection.ErrorCount conn = 1
        ∧ maxErrorCount p ≤ 1)).

Definition entries_shaped (p : ConnectionPool) : Prop :=
  ∀ name conn, connections p !! name = Some conn → entry_shape p name conn.

(** The state with the cancellation flag of the pool set to [b]. *)
Definition with_cancelled (b : bool) (s : Sys) : Sys :=
  {| pool := set_cancelled (pool s) b; tick := tick s; trace := trace s |}.

(** What a status snapshot copies from its entry. *)
Definition snapshot_of (st : ConnectionStatus.t) (conn : PooledConnection.t)
    : Prop :=
  ConnectionStatus.Name st = PooledConnection.Name conn
  ∧ ConnectionStatus.State st = PooledConnection.State conn
  ∧ ConnectionStatus.LastUsed st = PooledConnection.LastUsed conn
  ∧ ConnectionStatus.LastPing st = PooledConnection.LastPing conn
  ∧ ConnectionStatus.ErrorCount st = PooledConnection.ErrorCount conn
  ∧ ConnectionStatus.CreatedAt st = PooledConnection.CreatedAt conn.

(** ** Package [config]: the connections of the configuration

    [Save] writes the configuration file; its outcome is the environment's,
    given as a function of the configuration it is asked to write.  The
    methods have a pointer receiver: the configuration they leave behind is
    returned with their error. *)

Definition config_set_Connections (c : config.Config)
    (m : gmap string config.Connection) : config.Config :=
  {| config.Connections := m; config.Settings_ := config.Settings_ c |}.

Definition config_AddConnection (save : config.Config → option error)
    (c : config.Config) (name : string) (conn : config.Connection)
    : config.Config * option error :=
  let c := config_set_Connections c (<[name := conn]> (config.Connections c)) in
  (c, save c).

Definition config_RemoveConnection (save : config.Config → option error)
    (c : config.Config) (name : string) : config.Config * option error :=
  let c := config_set_Connections c (delete name (config.Connections c)) in
  (c, save c).

(** [order] is the order in which the [range] visits the map. *)
Definition config_ListConnections
    (order : list (string * config.Connection) →
             list (string * config.Connection))
    (c : config.Config) : list string :=
  (order (map_to_list (config.Connections c))).*1.

(** ** Package [credentials]: the caching credential manager

    The keychain, the biometric prompt in front of it and the clock are the
    environment [Keychain]; [kc_Get] is [getWithBiometric], whatever the
    platform makes of it. *)

Module credentials.

Definition ServiceName : string := "simpledb-mcp".

Record cachedCredential : Type := {
  password : string;
  timestamp : Time
}.

Record Manager : Type := {
  cache : gmap string cachedCredential;
  cacheTime : Duration
}.

Record Keychain : Type := {
  kc_Now : nat → Time;
  kc_Set : nat → string → string → string → option error;
  kc_Get : nat → string → result string;
  kc_Delete : nat → string → string → option error
}.

(** The calls made to the keychain, with what they returned. *)
Inductive Call : Type :=
| KSet (service key secret : string) (r : option error)
| KGet (key : string) (r : result string)
| KDelete (service key : string) (r : option error).

Record World : Type := {
  mgr : Manager;
  clock : nat;
  calls : list Call
}.

Definition set_cache (m : Manager) (c : gmap string cachedCredential)
    : Manager :=
  {| cache := c; cacheTime := cacheTime m |}.

(** One call to the environment: the counter moves on. *)
Definition called (w : World) (cs : list Call) : World :=
  {| mgr := mgr w; clock := S (clock w); calls := calls w ++ cs |}.

Definition set_mgr (w : World) (m : Manager) : World :=
  {| mgr := m; clock := clock w; calls := calls w |}.

(** [fmt.Sprintf("%s:%s", connectionName, username)] *)
Definition cacheKey (connectionName username : string) : string :=
  connectionName +:+ ":" +:+ username.

Definition NewManager (cacheTime : Duration) : Manager :=
  {| cache := ∅; cacheTime := cacheTime |}.

Definition Store (kc : Keychain) (connectionName username secret : string)
    (w : World) : option error * World :=
  let key := cacheKey connectionName username in
  let r := kc_Set kc (clock w) ServiceName key secret in
  let w := called w [KSet ServiceName key secret r] in
  match r with
  | Some err =>
      (Some (Errorf_w "failed to store credential in keychain" err), w)
  | None =>
      let now := kc_Now kc (clock w) in
      let w := called w [] in
      (None,
       set_mgr w (set_cache (mgr w)
                    (<[key := {| password := secret; timestamp := now |}]>
                       (cache (mgr w)))))
  end.

Definition Get (kc : Keychain) (connectionName username : string)
    (w : World) : result Credential * World :=
  let key := cacheKey connectionName username in
  let '(hit, w) :=
    match cache (mgr w) !! key with
    | Some cached =>
        let now := kc_Now kc (clock w) in
        let w := called w [] in
        if bool_decide (Time_Sub now (timestamp cached) < cacheTime (mgr w))
        then (Some (password cached), w)
        else (None, w)
    | None => (None, w)
    end in
  match hit with
  | Some secret =>
      (Ok {| cred_Username := username; cred_Password := secret |}, w)
  | None =>
      let r := kc_Get kc (clock w) key in
      let w := called w [KGet key r] in
      match r with
      | Err err => (Err (Errorf_w "failed to retrieve credential" err), w)
      | Ok secret =>
          let now := kc_Now kc (clock w) in
          let w := called w [] in
          (Ok {| cred_Username := username; cred_Password := secret |},
           set_mgr w (set_cache (mgr w)
                        (<[key := {| password := secret; timestamp := now |}]>
                           (cache (mgr w)))))
      end
  end.

Definition Delete (kc : Keychain) (connectionName username : string)
    (w : World) : option error * World :=
  let key := cacheKey connectionName username in
  let r := kc_Delete kc (clock w) ServiceName key in
  let w := called w [KDelete ServiceName key r] in
  match r with
  | Some err =>
      (Some (Errorf_w "failed to delete credential from keychain" err), w)
  | None => (None, set_mgr w (set_cache (mgr w) (delete key (cache (mgr w)))))
  end.

Definition ClearCache (w : World) : World :=
  set_mgr w (set_cache (mgr w) ∅).

Definition TestConnection (kc : Keychain) (connectionName username : string)
    (w : World) : option error * World :=
  match Get kc connectionName username w with
  | (Ok _, w) => (None, w)
  | (Err err, w) => (Some err, w)
  end.

(** The cache holds, under [key], an entry younger than the cache time at
    the reading [now] of the clock. *)
Definition fresh (m : Manager) (key : string) (now : Time) : Prop :=
  ∃ cached, cache m !! key = Some cached
            ∧ Time_Sub now (timestamp cached) < cacheTime m.

End credentials.

(** The character of the string [":"]. *)
Definition colon : Ascii.ascii :=
  match ":"%string with
  | String a _ => a
  | EmptyString => Ascii.zero
  end.

(** The string has a colon in it. *)
Fixpoint has_colon (s : string) : bool :=
  match s with
  | EmptyString => false
  | String a s' => Ascii.eqb a colon || has_colon s'
  end.

(** A keychain that accepts every write and delete and answers every read
    with the same password, under a clock that advances one second per
    call; a manager that caches for five minutes. *)
Definition demoKeychain : credentials.Keychain :=
  {| credentials.kc_Now := fun k => Z.of_nat k * 1000000000;
     credentials.kc_Set := fun _ _ _ _ => None;
     credentials.kc_Get := fun _ _ => Ok "from-keychain"%string;
     credentials.kc_Delete := fun _ _ _ => None |}.

Definition demoWorld : credentials.World :=
  {| credentials.mgr := credentials.NewManager (300 * 1000000000);
     credentials.clock := 0;
     credentials.calls := [] |}.

(** The same manager 400 seconds later, with a password cached at time 0. *)
Definition staleWorld : credentials.World :=
  {| credentials.mgr :=
       {| credentials.cache :=
            {[ "db:reader"%string :=
                 {| credentials.password := "old";
                    credentials.timestamp := 0 |} ]};
          credentials.cacheTime := 300 * 1000000000 |};
     credentials.clock := 400;
     credentials.calls := [] |}.

(** ** Package [tools]: the row limit of [getTableSample]

    The statements of [getTableSample] between the lookup of the connection
    and the call of the backend: the limit of the request, [0] when the
    request gives none, becomes the limit passed on. *)
Definition sampleLimit (argsLimit maxRows : Z) : Z :=
  let limit := argsLimit in
  let limit := if bool_decide (limit = 0) then 3 else limit in
  let limit := if bool_decide (limit > maxRows) then maxRows else limit in
  let limit := if bool_decide (limit > 100) then 100 else limit in
  limit.

(** ** Properties *)

Section Properties.

Context (env : Env).

Lemma int_incr_small (x : Z) : MinInt64 ≤ x < MaxInt64 → int_incr x = x + 1.
Proof.
  unfold int_incr, wrap64, MinInt64, MaxInt64. intros Hx.
  rewrite Z.mod_small; lia.
Qed.

Lemma int_incr_0 : int_incr 0 = 1.
Proof. reflexivity. Qed.

(** (C8) [GetConnectionStatus] of a name with no registry entry returns a
    Disconnected snapshot with zero timestamps and an error count of 0, and
    the whole state, the registry included, is the one before the call. *)
Theorem GetConnectionStatus_absent (s : Sys) (name : string) :
  connections (pool s) !! name = None →
  GetConnectionStatus env name s =
    ({| ConnectionStatus.Name := name;
        ConnectionStatus.State := StateDisconnected;
        ConnectionStatus.LastUsed := zeroTime;
        ConnectionStatus.LastPing := zeroTime;
        ConnectionStatus.ErrorCount := 0;
        ConnectionStatus.CreatedAt := zeroTime;
        ConnectionStatus.IdleTime := 0;
        ConnectionStatus.ConnectedFor := 0 |}, s).
Proof.
  intros Habsent.
  unfold GetConnectionStatus, bind, get_pool, ret.
  by rewrite Habsent.
Qed.


(** *** Running the monad *)

Lemma bind_run {A B : Type} (m : M A) (k : A → M B) (s : Sys) :
  bind m k s = k (m s).1 (m s).2.
Proof. unfold bind. by destruct (m s). Qed.

Ltac prims :=
  cbv [time_Since time_Now credManager_Get sql_Open DB_Ping DB_Close
       DB_configure range_connections store update
       bind ret get_pool modify_pool next_tick emit];
  cbn [pool tick trace fst snd connections manager cancelled pingInterval
       maxIdleTime maxErrorCount reconnectDelay totalConnections
       successfulPings failedPings set_connections set_totalConnections
       set_successfulPings set_failedPings set_cancelled].

Lemma GetConnection_creation_path (s : Sys) (name : string) :
  unhealthy (pool s) name →
  GetConnection env name s = createConnection env name (touch env name s).
Proof.
  intros Hun. unfold GetConnection, touch.
  rewrite bind_run. cbn [get_pool fst snd].
  destruct (connections (pool s) !! name) as [conn|] eqn:Hlook.
  - assert (bool_decide (PooledConnection.State conn = StateConnected)
            && bool_decide (PooledConnection.DB conn ≠ None) = false) as ->.
    { destruct (Hun conn Hlook) as [Hst | Hdb].
      - by rewrite (bool_decide_eq_false_2 _ Hst).
      - rewrite andb_false_iff. right. apply bool_decide_eq_false_2. tauto. }
    reflexivity.
  - reflexivity.
Qed.


Ltac flat :=
  cbv [set_connections set_totalConnections set_successfulPings
       set_failedPings set_cancelled];
  cbn [connections manager cancelled pingInterval maxIdleTime maxErrorCount
       reconnectDelay totalConnections successfulPings failedPings].

Ltac failures :=
  rewrite ?Forall_app; repeat split;
  first
    [ assumption
    | eapply Forall_impl; [eassumption | cbn; by auto]
    | repeat first
        [ apply Forall_nil_2
        | apply Forall_cons_2; [cbn; first [done | by left | by right] |] ] ].

(** What [createRawConnection] leaves behind: the pool is untouched, the
    calls made are appended to the trace, a returned handle is new, and a
    returned error wraps the only failure the trace reports. *)
Lemma createRawConnection_outcome (c : config.Connection) (name : string)
    (s : Sys) :
  ∃ new,
    pool (createRawConnection env c name s).2 = pool s
    ∧ trace (createRawConnection env c name s).2 = trace s ++ new
    ∧ match (createRawConnection env c name s).1 with
      | Ok h => Forall (fun ev => stepFailure ev = None) new
      | Err e =>
          ∃ msg cause,
            e = Errorf_w msg cause
            ∧ Forall (fun ev => stepFailure ev = None
                                ∨ stepFailure ev = Some cause) new
      end.
Proof.
  unfold createRawConnection. prims.
  destruct (negb (String.eqb (config.Username c) "")).
  - destruct (env_Get env (tick s) name (config.Username c))
      as [cred|err] eqn:Hget; cbn.
    + destruct (buildDSN c (cred_Username cred) (cred_Password cred))
        as [dsn|err]; cbn.
      * destruct (env_Open env (S (tick s)) (config.Type_ c) dsn)
          as [err|] eqn:Hopen; cbn.
        -- eexists. split; [done|]. split; [by rewrite <- app_assoc|].
           exists "failed to open database connection"%string, err.
           split; [done|]. failures.
        -- eexists. split; [done|]. split; [by rewrite <- app_assoc|].
           failures.
      * eexists. split; [done|]. split; [done|].
        exists "failed to build connection string"%string, err.
        split; [done|]. failures.
    + eexists. split; [done|]. split; [done|].
      eexists _, err. split; [done|]. failures.
  - cbn. destruct (buildDSN c "" "") as [dsn|err]; cbn.
    + destruct (env_Open env (tick s) (config.Type_ c) dsn)
        as [err|] eqn:Hopen; cbn.
      * eexists. split; [done|]. split; [done|].
        exists "failed to open database connection"%string, err.
        split; [done|]. failures.
      * eexists. split; [done|]. split; [done|].
        failures.
    + exists []. split; [done|]. split; [by rewrite app_nil_r|].
      exists "failed to build connection string"%string, err.
      split; [done|]. failures.
Qed.


(** What [createConnection] leaves behind for a configured name: a new
    entry stored under the name, whatever was there before. *)
Lemma createConnection_outcome (s : Sys) (name : string)
    (c : config.Connection) :
  config.GetConnection (config (manager (pool s))) name = Some c →
  ∃ new entry tc,
    pool (createConnection env name s).2 =
      set_totalConnections
        (set_connections (pool s) (<[name := entry]> (connections (pool s))))
        tc
    ∧ trace (createConnection env name s).2 = trace s ++ new
    ∧ PooledConnection.Name entry = name
    ∧ PooledConnection.Config entry = c
    ∧ PooledConnection.CreatedAt entry = env_Now env (tick s)
    ∧ PooledConnection.LastUsed entry = env_Now env (S (tick s))
    ∧ match (createConnection env name s).1 with
      | Ok h =>
          PooledConnection.State entry = StateConnected
          ∧ PooledConnection.DB entry = Some h
          ∧ PooledConnection.ErrorCount entry = 0
          ∧ PooledConnection.LastPing entry =
              env_Now env (Nat.pred (tick (createConnection env name s).2))
          ∧ tc = int_incr (totalConnections (pool s))
          ∧ Forall (fun ev => stepFailure ev = None) new
      | Err e =>
          PooledConnection.State entry = StateError
          ∧ PooledConnection.DB entry = None
          ∧ PooledConnection.ErrorCount entry = 1
          ∧ PooledConnection.LastPing entry = zeroTime
          ∧ tc = totalConnections (pool s)
          ∧ ∃ msg cause,
              e = Errorf_w msg cause
              ∧ Forall (fun ev => stepFailure ev = None
                                  ∨ stepFailure ev = Some cause) new
      end.
Proof.
  intros Hc. unfold createConnection. prims. rewrite Hc. prims.
  match goal with
  | |- context [createRawConnection env c name ?st] =>
      destruct (createRawConnection_outcome c name st)
        as (new & Hp & Ht & Hr);
      destruct (createRawConnection env c name st) as [r s2]
  end.
  cbn [fst snd pool trace] in Hp, Ht, Hr.
  destruct r as [db|err]; prims.
  - destruct (env_Ping env (tick s2) db) as [err|] eqn:Hping; prims.
    + rewrite Hp, Ht. prims. rewrite alter_insert_eq. flat.
      eexists _, _, (totalConnections (pool s)).
      split; [reflexivity|].
      split; [by rewrite <- !app_assoc|].
      do 4 (split; [reflexivity|]).
      do 5 (split; [reflexivity|]).
      eexists _, err. split; [reflexivity|].
      failures.
    + rewrite Hp, Ht. prims. rewrite alter_insert_eq. flat.
      eexists _, _, _. split; [reflexivity|].
      split; [by rewrite <- !app_assoc|].
      do 4 (split; [reflexivity|]).
      do 5 (split; [reflexivity|]).
      failures.
  - rewrite Hp. prims. rewrite alter_insert_eq. flat.
    eexists new, _, (totalConnections (pool s)).
    split; [reflexivity|].
    split; [done|].
    do 4 (split; [reflexivity|]).
    do 5 (split; [reflexivity|]).
    destruct Hr as (msg & cause & -> & Hr). by eexists _, _.
Qed.


Lemma createConnection_not_configured (s : Sys) (name : string) :
  config.GetConnection (config (manager (pool s))) name = None →
  createConnection env name s =
    (Err (errors_New ("connection '" +:+ name
                      +:+ "' not found in configuration")), s).
Proof. intros Hc. unfold createConnection. prims. by rewrite Hc. Qed.

Lemma touch_manager (s : Sys) (name : string) :
  manager (pool (touch env name s)) = manager (pool s).
Proof. unfold touch. by destruct (connections (pool s) !! name). Qed.


Lemma touch_trace (s : Sys) (name : string) :
  trace (touch env name s) = trace s.
Proof. unfold touch. by destruct (connections (pool s) !! name). Qed.

Lemma touch_other (s : Sys) (name other : string) :
  other ≠ name →
  connections (pool (touch env name s)) !! other
  = connections (pool s) !! other.
Proof.
  intros Hne. unfold touch. destruct (connections (pool s) !! name); [|done].
  cbn. by rewrite lookup_alter_ne.
Qed.

(** The path of [GetConnection] that hands out the handle of an entry. *)
Lemma GetConnection_fast_path (s : Sys) (name : string)
    (conn : PooledConnection.t) (h : Handle) :
  connections (pool s) !! name = Some conn →
  PooledConnection.State conn = StateConnected →
  PooledConnection.DB conn = Some h →
  GetConnection env name s =
    (Ok h,
     {| pool := set_connections (pool s)
                  (<[name := PooledConnection.set_LastUsed conn
                               (env_Now env (tick s))]>
                     (connections (pool s)));
        tick := S (tick s);
        trace := trace s |}).
Proof.
  intros Hlook Hstate Hdb. unfold GetConnection. prims.
  rewrite Hlook. prims. rewrite Hstate, Hdb.
  rewrite !bool_decide_eq_true_2 by done. cbn [andb].
  by rewrite (alter_alt_Some _ _ _ _ Hlook).
Qed.



Lemma healthy_or_unhealthy (p : ConnectionPool) (name : string) :
  (∃ conn h, connections p !! name = Some conn
             ∧ PooledConnection.State conn = StateConnected
             ∧ PooledConnection.DB conn = Some h)
  ∨ unhealthy p name.
Proof.
  unfold unhealthy.
  destruct (connections p !! name) as [conn|] eqn:Hlook; [|by right].
  destruct (decide (PooledConnection.State conn = StateConnected)) as [Hst|Hst].
  - destruct (PooledConnection.DB conn) as [h|] eqn:Hdb.
    + left. by exists conn, h.
    + right. intros ? [= <-]. by right.
  - right. intros ? [= <-]. by left.
Qed.

(** The creation path of [GetConnection] on a configured name, with the
    facts of [createConnection_outcome] read from the state before the
    call. *)
Lemma GetConnection_creation_outcome (s : Sys) (name : string)
    (c : config.Connection) :
  config.GetConnection (config (manager (pool s))) name = Some c →
  unhealthy (pool s) name →
  ∃ new entry,
    connections (pool (GetConnection env name s).2) !! name = Some entry
    ∧ trace (GetConnection env name s).2 = trace s ++ new
    ∧ PooledConnection.CreatedAt entry = env_Now env (tick (touch env name s))
    ∧ match (GetConnection env name s).1 with
      | Ok h =>
          PooledConnection.State entry = StateConnected
          ∧ PooledConnection.DB entry = Some h
          ∧ PooledConnection.ErrorCount entry = 0
          ∧ Forall (fun ev => stepFailure ev = None) new
      | Err e =>
          PooledConnection.State entry = StateError
          ∧ PooledConnection.DB entry = None
          ∧ PooledConnection.ErrorCount entry = 1
          ∧ PooledConnection.LastPing entry = zeroTime
          ∧ ∃ msg cause,
              e = Errorf_w msg cause
              ∧ Forall (fun ev => stepFailure ev = None
                                  ∨ stepFailure ev = Some cause) new
      end.
Proof.
  intros Hc Hun. rewrite (GetConnection_creation_path _ _ Hun).
  rewrite <- (touch_manager s name) in Hc.
  destruct (createConnection_outcome _ _ _ Hc)
    as (new & entry & tc & Hp & Ht & _ & _ & Hca & _ & Hr).
  exists new, entry. rewrite Hp, Ht, touch_trace. flat.
  rewrite lookup_insert_eq. do 3 (split; [done|]).
  destruct (createConnection env name (touch env name s)).1.
  - destruct Hr as (? & ? & ? & _ & _ & ?). done.
  - destruct Hr as (? & ? & ? & ? & _ & ?). done.
Qed.

(** (C4) On a configured name, a call of [GetConnection] in which the
    credential resolution, the open of the raw handle or the initial ping
    fails returns an error that wraps that failure, and leaves under the
    name an entry in state Error, with an error count of 1 (the count 0 of
    the new entry, incremented) and a nil handle.  More generally every
    error the call returns wraps its cause and leaves such an entry. *)
Theorem GetConnection_failure (s : Sys) (name : string)
    (c : config.Connection) :
  config.GetConnection (config (manager (pool s))) name = Some c →
  let r := (GetConnection env name s).1 in
  let s' := (GetConnection env name s).2 in
  let failed_entry :=
    ∃ conn', connections (pool s') !! name = Some conn'
             ∧ PooledConnection.State conn' = StateError
             ∧ PooledConnection.ErrorCount conn' = 1
             ∧ PooledConnection.DB conn' = None in
  (∀ new ev cause,
     trace s' = trace s ++ new →
     ev ∈ new →
     stepFailure ev = Some cause →
     (∃ msg, r = Err (Errorf_w msg cause)
             ∧ errors_Unwrap (Errorf_w msg cause) = Some cause)
     ∧ failed_entry)
  ∧ (∀ e, r = Err e →
          (∃ msg cause, e = Errorf_w msg cause) ∧ failed_entry).
Proof.
  intros Hc r s' failed_entry. subst r s' failed_entry.
  destruct (healthy_or_unhealthy (pool s) name)
    as [(conn & h & Hlook & Hst & Hdb) | Hun].
  - rewrite (GetConnection_fast_path s name conn h Hlook Hst Hdb). cbn [fst snd trace]. split.
    + intros new ev cause Ht Hev.
      assert (new = []) as ->.
      { apply (app_inv_head (trace s)). by rewrite app_nil_r. }
      by apply elem_of_nil in Hev.
    + by intros e.
  - destruct (GetConnection_creation_outcome s name c Hc Hun)
      as (new & entry & Hlook & Ht & _ & Hr).
    rewrite Ht, Hlook. split.
    + intros new' ev cause Ht' Hev Hfail.
      apply app_inv_head in Ht' as <-.
      destruct (GetConnection env name s).1 as [h|e].
      * destruct Hr as (_ & _ & _ & Hnone).
        rewrite Forall_forall in Hnone. specialize (Hnone ev Hev). congruence.
      * destruct Hr as (Hst & Hdb & Hec & _ & msg & cause' & -> & Hall).
        rewrite Forall_forall in Hall.
        destruct (Hall ev Hev) as [Hn | Hs]; [congruence|].
        assert (cause' = cause) as -> by congruence.
        split; [by exists msg|]. by exists entry.
    + intros e He. rewrite He in Hr.
      destruct Hr as (Hst & Hdb & Hec & _ & msg & cause' & -> & Hall).
      split; [by exists msg, cause'|]. by exists entry.
Qed.


(** *** Operations that leave the pool as it is *)

Lemma keeps_pool_ret {A : Type} (a : A) : keeps_pool (ret a).
Proof. done. Qed.

Lemma keeps_pool_bind {A B : Type} (m : M A) (k : A → M B) :
  keeps_pool m → (∀ a, keeps_pool (k a)) → keeps_pool (bind m k).
Proof.
  intros Hm Hk s. rewrite bind_run. by rewrite Hk, Hm.
Qed.

Lemma keeps_pool_next_tick : keeps_pool next_tick.
Proof. done. Qed.

Lemma keeps_pool_emit (ev : Event) : keeps_pool (emit ev).
Proof. done. Qed.

Lemma keeps_pool_get_pool : keeps_pool get_pool.
Proof. done. Qed.

Lemma keeps_pool_time_Now : keeps_pool (time_Now env).
Proof. done. Qed.

Lemma keeps_pool_DB_Ping (db : Handle) : keeps_pool (DB_Ping env db).
Proof. done. Qed.

Lemma keeps_pool_DB_Close (db : Handle) : keeps_pool (DB_Close env db).
Proof. done. Qed.

Lemma keeps_pool_range : keeps_pool (range_connections env).
Proof. done. Qed.

Lemma keeps_pool_statusOf (conn : PooledConnection.t) :
  keeps_pool (statusOf env conn).
Proof. done. Qed.

Lemma keeps_pool_mapM {A B : Type} (l : list A) (f : A → M B) :
  (∀ a, keeps_pool (f a)) → keeps_pool (mapM l f).
Proof.
  intros Hf. induction l as [|a l IH]; [done|]. cbn [mapM].
  apply keeps_pool_bind; [apply Hf|]. intros b.
  apply keeps_pool_bind; [apply IH|]. intros bs. apply keeps_pool_ret.
Qed.

Lemma keeps_pool_forM_ {A : Type} (l : list A) (f : A → M unit) :
  (∀ a, keeps_pool (f a)) → keeps_pool (forM_ l f).
Proof.
  intros Hf. induction l as [|a l IH]; [done|]. cbn [forM_].
  apply keeps_pool_bind; [apply Hf | intros _; apply IH].
Qed.

Lemma keeps_pool_GetConnectionStatus (name : string) :
  keeps_pool (GetConnectionStatus env name).
Proof.
  intros s. unfold GetConnectionStatus. rewrite bind_run. cbn [get_pool fst snd].
  destruct (connections (pool s) !! name); [|done]. apply keeps_pool_statusOf.
Qed.

Lemma keeps_pool_GetAllConnectionStatus :
  keeps_pool (GetAllConnectionStatus env).
Proof.
  apply keeps_pool_bind; [apply keeps_pool_range|]. intros conns.
  apply keeps_pool_mapM, keeps_pool_statusOf.
Qed.

Lemma keeps_pool_GetPoolMetrics : keeps_pool (GetPoolMetrics env).
Proof. done. Qed.

(** *** The registry of a reachable state holds configured names only *)

Lemma inv_forM_ {A : Type} (mgr : Manager) (l : list A) (f : A → M unit) :
  (∀ a s, inv mgr s → inv mgr (f a s).2) →
  ∀ s, inv mgr s → inv mgr (forM_ l f s).2.
Proof.
  intros Hf. induction l as [|a l IH]; intros s Hs; [done|].
  cbn [forM_]. rewrite bind_run. by apply IH, Hf.
Qed.

Lemma inv_keeps_pool {A : Type} (mgr : Manager) (m : M A) (s : Sys) :
  keeps_pool m → inv mgr s → inv mgr (m s).2.
Proof. intros Hm. unfold inv. by rewrite (Hm s). Qed.

Lemma inv_touch (mgr : Manager) (s : Sys) (name : string) :
  inv mgr s → inv mgr (touch env name s).
Proof.
  intros [Hm Hk]. split; [by rewrite touch_manager|].
  intros other. destruct (decide (other = name)) as [->|Hne].
  - unfold touch. destruct (connections (pool s) !! name) eqn:Hlook.
    + intros _. apply Hk. by rewrite Hlook.
    + apply Hk.
  - rewrite touch_other by done. apply Hk.
Qed.

Lemma inv_createConnection (mgr : Manager) (s : Sys) (name : string) :
  inv mgr s → inv mgr (createConnection env name s).2.
Proof.
  intros [Hm Hk].
  destruct (config.GetConnection (config (manager (pool s))) name)
    as [c|] eqn:Hc.
  - destruct (createConnection_outcome _ _ _ Hc)
      as (new & entry & tc & Hp & _).
    unfold inv. rewrite Hp. flat. split; [done|].
    intros other. destruct (decide (other = name)) as [->|Hne].
    + intros _. rewrite <- Hm, Hc. done.
    + rewrite lookup_insert_ne by done. apply Hk.
  - by rewrite (createConnection_not_configured _ _ Hc).
Qed.

Lemma inv_GetConnection (mgr : Manager) (s : Sys) (name : string) :
  inv mgr s → inv mgr (GetConnection env name s).2.
Proof.
  intros Hs.
  destruct (healthy_or_unhealthy (pool s) name)
    as [(conn & h & Hlook & Hst & Hdb) | Hun].
  - rewrite (GetConnection_fast_path s name conn h Hlook Hst Hdb). cbn [snd].
    destruct Hs as [Hm Hk]. split; [done|]. cbn.
    intros other. destruct (decide (other = name)) as [->|Hne].
    + intros _. apply Hk. by rewrite Hlook.
    + rewrite lookup_insert_ne by done. apply Hk.
  - rewrite (GetConnection_creation_path _ _ Hun).
    by apply inv_createConnection, inv_touch.
Qed.


(** *** [checkConnection] *)

Lemma checkConnection_skip (conn : PooledConnection.t) (s : Sys) :
  PooledConnection.DB conn = None
  ∨ PooledConnection.State conn = StateError →
  checkConnection env conn s = (conn, s).
Proof.
  intros Hskip. unfold checkConnection.
  assert (bool_decide (PooledConnection.DB conn = None)
          || bool_decide (PooledConnection.State conn = StateError) = true)
    as ->; [|done].
  apply orb_true_iff.
  destruct Hskip; [left | right]; by apply bool_decide_eq_true_2.
Qed.

Lemma checkConnection_guard_passed (conn : PooledConnection.t) (h : Handle) :
  PooledConnection.DB conn = Some h →
  PooledConnection.State conn ≠ StateError →
  bool_decide (PooledConnection.DB conn = None)
  || bool_decide (PooledConnection.State conn = StateError) = false.
Proof.
  intros Hdb Hst. apply orb_false_iff. split.
  - apply bool_decide_eq_false_2. congruence.
  - by apply bool_decide_eq_false_2.
Qed.

Lemma checkConnection_ping_ok (conn : PooledConnection.t) (s : Sys)
    (h : Handle) :
  PooledConnection.DB conn = Some h →
  PooledConnection.State conn ≠ StateError →
  env_Ping env (tick s) h = None →
  checkConnection env conn s =
    (PooledConnection.set_ErrorCount
       (PooledConnection.set_LastPing conn (env_Now env (S (tick s)))) 0,
     {| pool := set_successfulPings (pool s)
                  (int_incr (successfulPings (pool s)));
        tick := S (S (tick s));
        trace := trace s ++ [EvPing h None] |}).
Proof.
  intros Hdb Hst Hping. unfold checkConnection.
  rewrite (checkConnection_guard_passed conn h Hdb Hst), Hdb. prims.
  rewrite Hping. prims.
  cbn [PooledConnection.State PooledConnection.set_LastPing].
  by rewrite (bool_decide_eq_false_2 _ Hst).
Qed.

Lemma checkConnection_ping_failed (conn : PooledConnection.t) (s : Sys)
    (h : Handle) (err : error) :
  PooledConnection.DB conn = Some h →
  PooledConnection.State conn ≠ StateError →
  env_Ping env (tick s) h = Some err →
  let failed :=
    PooledConnection.set_ErrorCount
      (PooledConnection.set_State conn StateError)
      (int_incr (PooledConnection.ErrorCount conn)) in
  checkConnection env conn s =
    if bool_decide (int_incr (PooledConnection.ErrorCount conn)
                    >= maxErrorCount (pool s))
    then
      (PooledConnection.set_State (PooledConnection.set_DB failed None)
         StateDisconnected,
       {| pool := set_failedPings (pool s) (int_incr (failedPings (pool s)));
          tick := S (S (tick s));
          trace := trace s ++ [EvPing h (Some err);
                               EvClose h (env_Close env (S (tick s)) h)] |})
    else
      (failed,
       {| pool := set_failedPings (pool s) (int_incr (failedPings (pool s)));
          tick := S (tick s);
          trace := trace s ++ [EvPing h (Some err)] |}).
Proof.
  intros Hdb Hst Hping failed. subst failed. unfold checkConnection.
  rewrite (checkConnection_guard_passed conn h Hdb Hst), Hdb. prims.
  rewrite Hping. prims.
  cbn [PooledConnection.ErrorCount PooledConnection.set_ErrorCount
       PooledConnection.set_State].
  destruct (bool_decide (int_incr (PooledConnection.ErrorCount conn)
                         >= maxErrorCount (pool s))); prims.
  - by rewrite <- app_assoc.
  - done.
Qed.

(** Whatever [checkConnection] does, it writes only the two ping counters
    of the pool, and it keeps the identity of the entry. *)
Lemma checkConnection_frame (conn : PooledConnection.t) (s : Sys) :
  let conn' := (checkConnection env conn s).1 in
  let s' := (checkConnection env conn s).2 in
  connections (pool s') = connections (pool s)
  ∧ manager (pool s') = manager (pool s)
  ∧ maxIdleTime (pool s') = maxIdleTime (pool s)
  ∧ maxErrorCount (pool s') = maxErrorCount (pool s)
  ∧ totalConnections (pool s') = totalConnections (pool s)
  ∧ PooledConnection.Name conn' = PooledConnection.Name conn
  ∧ PooledConnection.CreatedAt conn' = PooledConnection.CreatedAt conn
  ∧ PooledConnection.LastUsed conn' = PooledConnection.LastUsed conn.
Proof.
  destruct (PooledConnection.DB conn) as [h|] eqn:Hdb.
  - destruct (decide (PooledConnection.State conn = StateError)) as [Hst|Hst].
    + rewrite checkConnection_skip by auto. done.
    + destruct (env_Ping env (tick s) h) as [err|] eqn:Hping.
      * rewrite (checkConnection_ping_failed conn s h err Hdb Hst Hping).
        by destruct (bool_decide _).
      * by rewrite (checkConnection_ping_ok conn s h Hdb Hst Hping).
  - rewrite checkConnection_skip by auto. done.
Qed.


(** *** [cleanupIdleConnections] *)

Lemma removeConnection_pool (name : string) (s : Sys) :
  pool (removeConnection env name s).2
  = set_connections (pool s) (delete name (connections (pool s))).
Proof.
  unfold removeConnection. prims.
  destruct (connections (pool s) !! name) as [conn|] eqn:Hlook.
  - destruct (PooledConnection.DB conn); prims; reflexivity.
  - rewrite (delete_id _ _ Hlook). cbn [snd]. by destruct (pool s).
Qed.

Lemma removeConnection_trace (name : string) (s : Sys)
    (conn : PooledConnection.t) :
  connections (pool s) !! name = Some conn →
  trace (removeConnection env name s).2 =
    trace s
    ++ match PooledConnection.DB conn with
       | Some h => [EvClose h (env_Close env (tick s) h)]
       | None => []
       end
    ++ [EvRemoved name].
Proof.
  intros Hlook. unfold removeConnection. prims. rewrite Hlook.
  destruct (PooledConnection.DB conn); prims.
  - by rewrite <- app_assoc.
  - done.
Qed.

Lemma removeConnection_extends (name : string) (s : Sys) :
  ∃ new, trace (removeConnection env name s).2 = trace s ++ new.
Proof.
  destruct (connections (pool s) !! name) as [conn|] eqn:Hlook.
  - eexists. by apply removeConnection_trace.
  - exists []. unfold removeConnection. prims. rewrite Hlook.
    by rewrite app_nil_r.
Qed.

Lemma removeAll_extends (names : list string) (s : Sys) :
  ∃ new, trace (forM_ names (removeConnection env) s).2 = trace s ++ new.
Proof.
  revert s. induction names as [|name names IH]; intros s.
  - exists []. by rewrite app_nil_r.
  - cbn [forM_]. rewrite bind_run.
    destruct (removeConnection_extends name s) as [new1 H1].
    destruct (IH (removeConnection env name s).2) as [new2 H2].
    exists (new1 ++ new2). by rewrite H2, H1, app_assoc.
Qed.

Lemma removeAll_pool (names : list string) (s : Sys) :
  pool (forM_ names (removeConnection env) s).2
  = set_connections (pool s)
      (foldl (fun m name => delete name m) (connections (pool s)) names).
Proof.
  revert s. induction names as [|name names IH]; intros s.
  - cbn [forM_ foldl ret snd]. by destruct (pool s).
  - cbn [forM_ foldl]. rewrite bind_run, IH, removeConnection_pool. done.
Qed.

Lemma lookup_foldl_delete {V : Type} (names : list string)
    (m : gmap string V) (name : string) :
  foldl (fun m name => delete name m) m names !! name
  = if decide (name ∈ names) then None else m !! name.
Proof.
  revert m. induction names as [|n names IH]; intros m; cbn [foldl].
  - by rewrite decide_False by apply not_elem_of_nil.
  - rewrite IH. destruct (decide (name = n)) as [->|Hne].
    + rewrite lookup_delete_eq. rewrite (decide_True (P := n ∈ n :: names))
        by apply list_elem_of_here.
      by destruct (decide (n ∈ names)).
    + rewrite lookup_delete_ne by done.
      destruct (decide (name ∈ names)) as [Hin|Hnin].
      * by rewrite decide_True by by apply list_elem_of_further.
      * rewrite decide_False; [done|].
        rewrite elem_of_cons. tauto.
Qed.

(** When the trace of removing [names] reaches [name], its entry is still
    in the registry: the close of its handle, if it has one, and then the
    removal of the key follow one another. *)
Lemma removeAll_closes_then_removes (names : list string) (s : Sys)
    (name : string) (conn : PooledConnection.t) (h : Handle) :
  NoDup names →
  name ∈ names →
  connections (pool s) !! name = Some conn →
  PooledConnection.DB conn = Some h →
  ∃ before r after,
    trace (forM_ names (removeConnection env) s).2 =
      trace s ++ before ++ [EvClose h r; EvRemoved name] ++ after.
Proof.
  revert s. induction names as [|n names IH]; intros s Hnd Hin Hlook Hdb.
  - by apply elem_of_nil in Hin.
  - apply NoDup_cons in Hnd as [Hn Hnd]. cbn [forM_]. rewrite bind_run.
    destruct (decide (name = n)) as [<-|Hne].
    + destruct (removeAll_extends names (removeConnection env name s).2)
        as [after Hafter].
      exists [], (env_Close env (tick s) h), after.
      rewrite Hafter, (removeConnection_trace _ _ _ Hlook), Hdb.
      by rewrite <- !app_assoc.
    + apply elem_of_cons in Hin as [?|Hin]; [done|].
      destruct (removeConnection_extends n s) as [new Hnew].
      destruct (IH (removeConnection env n s).2 Hnd Hin)
        as (before & r & after & Htr); [|done|].
      { rewrite removeConnection_pool. cbn.
        by rewrite lookup_delete_ne by done. }
      exists (new ++ before), r, after.
      by rewrite Htr, Hnew, <- !app_assoc.
Qed.

(** The names the first loop of [cleanupIdleConnections] collects. *)
Lemma toRemove_spec (p : ConnectionPool) (now : Time) (k : nat)
    (name : string) :
  name ∈ (filter (fun nc => shouldRemove p now nc.2 = true)
            (env_range env k (map_to_list (connections p)))).*1
  ↔ ∃ conn, connections p !! name = Some conn
            ∧ shouldRemove p now conn = true.
Proof.
  rewrite list_elem_of_fmap. split.
  - intros ([n conn] & -> & Hin). apply list_elem_of_filter in Hin as [Hrm Hin].
    rewrite env_range_perm in Hin. apply elem_of_map_to_list in Hin.
    by exists conn.
  - intros (conn & Hlook & Hrm). exists (name, conn). split; [done|].
    apply list_elem_of_filter. split; [done|].
    rewrite env_range_perm. by apply elem_of_map_to_list.
Qed.

Lemma toRemove_NoDup (p : ConnectionPool) (now : Time) (k : nat) :
  NoDup (filter (fun nc => shouldRemove p now nc.2 = true)
           (env_range env k (map_to_list (connections p)))).*1.
Proof.
  eapply sublist_NoDup; [|apply fmap_sublist, sublist_filter].
  rewrite env_range_perm. apply NoDup_fst_map_to_list.
Qed.


Lemma cleanupIdleConnections_run (s : Sys) :
  cleanupIdleConnections env s =
    forM_ (filter (fun nc => shouldRemove (pool s) (env_Now env (tick s)) nc.2
                             = true)
             (env_range env (S (tick s))
                (map_to_list (connections (pool s))))).*1
      (removeConnection env)
      {| pool := pool s; tick := S (S (tick s)); trace := trace s |}.
Proof. reflexivity. Qed.

Lemma cleanupIdleConnections_lookup (s : Sys) (name : string) :
  connections (pool (cleanupIdleConnections env s).2) !! name =
    match connections (pool s) !! name with
    | Some conn =>
        if shouldRemove (pool s) (env_Now env (tick s)) conn
        then None else Some conn
    | None => None
    end.
Proof.
  rewrite cleanupIdleConnections_run, removeAll_pool.
  cbn [pool connections set_connections]. rewrite lookup_foldl_delete.
  destruct (decide _) as [Hin|Hnin].
  - apply toRemove_spec in Hin as (conn & -> & ->). done.
  - destruct (connections (pool s) !! name) as [conn|] eqn:Hlook; [|done].
    destruct (shouldRemove (pool s) (env_Now env (tick s)) conn) eqn:Hrm;
      [|done].
    destruct Hnin. apply toRemove_spec. by exists conn.
Qed.

Lemma shouldRemove_true (p : ConnectionPool) (now : Time)
    (conn : PooledConnection.t) :
  shouldRemove p now conn = true
  ↔ Time_Sub now (PooledConnection.LastUsed conn) > maxIdleTime p
    ∧ PooledConnection.State conn ≠ StateConnected.
Proof.
  unfold shouldRemove.
  rewrite andb_true_iff, negb_true_iff, bool_decide_eq_true,
    bool_decide_eq_false. done.
Qed.

(** (C5) The idle-reap pass keeps every entry whose state is Connected,
    however long ago it was last used.  It removes every entry whose state
    is not Connected and whose idle time, the time of the pass minus
    [LastUsed], exceeds the configured maximum; if such an entry still
    holds a handle, the close of that handle comes just before the removal
    of the key.  Every entry left in the registry was there, unchanged,
    before the pass. *)
Theorem cleanupIdleConnections_reaps (s : Sys) :
  let now := env_Now env (tick s) in
  let s' := (cleanupIdleConnections env s).2 in
  (∀ name conn,
     connections (pool s) !! name = Some conn →
     PooledConnection.State conn = StateConnected →
     connections (pool s') !! name = Some conn)
  ∧ (∀ name conn,
       connections (pool s) !! name = Some conn →
       PooledConnection.State conn ≠ StateConnected →
       Time_Sub now (PooledConnection.LastUsed conn) > maxIdleTime (pool s) →
       connections (pool s') !! name = None
       ∧ ∀ h, PooledConnection.DB conn = Some h →
              ∃ before r after,
                trace s' = trace s ++ before
                           ++ [EvClose h r; EvRemoved name] ++ after)
  ∧ (∀ name conn',
       connections (pool s') !! name = Some conn' →
       connections (pool s) !! name = Some conn').
Proof.
  intros now s'. subst now s'. split; [|split].
  - intros name conn Hlook Hst.
    rewrite cleanupIdleConnections_lookup, Hlook.
    destruct (shouldRemove _ _ conn) eqn:Hrm; [|done].
    apply shouldRemove_true in Hrm as [_ Hne]. done.
  - intros name conn Hlook Hst Hidle.
    assert (shouldRemove (pool s) (env_Now env (tick s)) conn = true) as Hrm
      by by apply shouldRemove_true.
    split.
    + by rewrite cleanupIdleConnections_lookup, Hlook, Hrm.
    + intros h Hdb. rewrite cleanupIdleConnections_run.
      match goal with
      | |- context [forM_ ?names _ ?s0] =>
          destruct (removeAll_closes_then_removes names s0 name conn h)
            as (before & r & after & Htr);
            [apply toRemove_NoDup | | exact Hlook | exact Hdb |]
      end.
      * apply toRemove_spec. by exists conn.
      * by exists before, r, after.
  - intros name conn'. rewrite cleanupIdleConnections_lookup.
    destruct (connections (pool s) !! name) as [conn|]; [|done].
    by destruct (shouldRemove _ _ conn).
Qed.


(** *** The invariant along the transitions *)

Lemma checkEntry_run (name : string) (s : Sys) :
  checkEntry env name s
  = match connections (pool s) !! name with
    | Some conn =>
        (tt,
         {| pool := set_connections (pool (checkConnection env conn s).2)
                      (<[name := (checkConnection env conn s).1]>
                         (connections (pool s)));
            tick := tick (checkConnection env conn s).2;
            trace := trace (checkConnection env conn s).2 |})
    | None => (tt, s)
    end.
Proof.
  unfold checkEntry. rewrite bind_run. cbn [get_pool fst snd].
  destruct (connections (pool s) !! name) as [conn|]; [|done].
  rewrite bind_run. unfold store, modify_pool.
  destruct (checkConnection_frame conn s) as (-> & _). done.
Qed.

Lemma inv_checkEntry (mgr : Manager) (name : string) (s : Sys) :
  inv mgr s → inv mgr (checkEntry env name s).2.
Proof.
  intros [Hm Hk]. rewrite checkEntry_run.
  destruct (connections (pool s) !! name) as [conn|] eqn:Hlook; [|done].
  destruct (checkConnection_frame conn s) as (_ & Hmgr & _).
  split; cbn; [congruence|].
  intros other. destruct (decide (other = name)) as [->|Hne].
  - intros _. apply Hk. by rewrite Hlook.
  - rewrite lookup_insert_ne by done. apply Hk.
Qed.

Lemma inv_cleanupIdleConnections (mgr : Manager) (s : Sys) :
  inv mgr s → inv mgr (cleanupIdleConnections env s).2.
Proof.
  intros [Hm Hk]. split.
  - by rewrite cleanupIdleConnections_run, removeAll_pool.
  - intros name [conn Hlook]. apply Hk.
    rewrite cleanupIdleConnections_lookup in Hlook.
    by destruct (connections (pool s) !! name).
Qed.

Lemma inv_healthCheck (mgr : Manager) (s : Sys) :
  inv mgr s → inv mgr (healthCheck env s).2.
Proof.
  intros Hs. unfold healthCheck. rewrite !bind_run.
  apply inv_cleanupIdleConnections, inv_forM_.
  - intros name s0. apply inv_checkEntry.
  - by apply (inv_keeps_pool mgr _ s keeps_pool_range).
Qed.

Lemma Close_pool (s : Sys) :
  pool (Close env s).2 = set_connections (set_cancelled (pool s) true) ∅.
Proof.
  unfold Close. rewrite !bind_run. cbn [ret modify_pool pool fst snd].
  rewrite keeps_pool_forM_, keeps_pool_range; [done|].
  intros conn s0. by destruct (PooledConnection.DB conn).
Qed.

Lemma inv_Close (mgr : Manager) (s : Sys) :
  inv mgr s → inv mgr (Close env s).2.
Proof.
  intros [Hm _]. unfold inv. rewrite Close_pool. split; [done|].
  intros name. cbn. rewrite lookup_empty. by intros [? ?].
Qed.

Lemma inv_step (mgr : Manager) (s s' : Sys) :
  step env s s' → inv mgr s → inv mgr s'.
Proof.
  intros Hstep Hs. destruct Hstep.
  - by apply inv_GetConnection.
  - unfold TestConnection. rewrite bind_run.
    destruct (GetConnection env name s).1.
    + apply (inv_keeps_pool mgr _ _ (keeps_pool_DB_Ping a)).
      by apply inv_GetConnection.
    + by apply inv_GetConnection.
  - by apply inv_keeps_pool; [apply keeps_pool_GetConnectionStatus|].
  - by apply inv_keeps_pool; [apply keeps_pool_GetAllConnectionStatus|].
  - by apply inv_keeps_pool; [apply keeps_pool_GetPoolMetrics|].
  - by apply inv_Close.
  - by apply inv_healthCheck.
  - by apply inv_checkEntry.
  - destruct Hs as [Hm Hk].
    destruct (checkConnection_frame conn s) as (Hconns & Hmgr & _).
    unfold inv. rewrite Hconns, Hmgr. done.
  - by apply inv_cleanupIdleConnections.
Qed.

Lemma reachable_inv (s : Sys) :
  reachable env s → inv (manager (pool s)) s.
Proof.
  induction 1 as [mgr k | s s' _ IH Hstep].
  - split; [done|]. intros name. cbn. rewrite lookup_empty. by intros [? ?].
  - pose proof (inv_step _ _ _ Hstep IH) as Hs'.
    destruct Hs' as [Hm Hk]. by rewrite Hm.
Qed.

(** (C7) In every reachable state, [GetConnection] on a name that the
    static configuration does not know returns the not-found error and
    leaves the whole state as it was: the registry had no entry for the
    name and has none afterwards. *)
Theorem GetConnection_not_configured (s : Sys) (name : string) :
  reachable env s →
  config.GetConnection (config (manager (pool s))) name = None →
  GetConnection env name s =
    (Err (errors_New ("connection '" +:+ name
                      +:+ "' not found in configuration")), s)
  ∧ connections (pool s) !! name = None
  ∧ connections (pool (GetConnection env name s).2) !! name = None.
Proof.
  intros Hreach Hc.
  destruct (reachable_inv s Hreach) as [_ Hk].
  assert (connections (pool s) !! name = None) as Hnone.
  { destruct (connections (pool s) !! name) eqn:Hlook; [|done].
    destruct (Hk name) as [c Hc']; [by rewrite Hlook|]. congruence. }
  assert (GetConnection env name s =
            (Err (errors_New ("connection '" +:+ name
                              +:+ "' not found in configuration")), s))
    as Hget.
  { rewrite GetConnection_creation_path.
    - unfold touch. rewrite Hnone.
      by apply createConnection_not_configured.
    - intros conn. by rewrite Hnone. }
  by rewrite Hget.
Qed.


(** *** [GetPoolMetrics] *)

Lemma size_filter_map_to_list {V : Type} (P : string * V → Prop)
    `{!∀ x, Decision (P x)} (m : gmap string V) :
  size (filter P m) = length (filter P (map_to_list m)).
Proof.
  rewrite <- length_map_to_list, map_filter_alt.
  apply Permutation_length, map_to_list_to_map.
  eapply sublist_NoDup; [apply (NoDup_fst_map_to_list m)|].
  apply fmap_sublist, sublist_filter.
Qed.

Lemma filter_state_lengths (l : list (string * PooledConnection.t)) :
  (length (filter (fun nc => PooledConnection.State nc.2 = StateConnected) l)
   + length (filter (fun nc => PooledConnection.State nc.2 = StateError) l)
   ≤ length l)%nat.
Proof.
  induction l as [|[n conn] l IH]; [done|].
  rewrite !filter_cons. cbn [snd].
  destruct (decide (PooledConnection.State conn = StateConnected)) as [Hc|Hc];
    destruct (decide (PooledConnection.State conn = StateError)) as [He|He];
    cbn [length]; try lia.
  congruence.
Qed.

(** The loop of [GetPoolMetrics] counts: no counter wraps around while the
    registry has a length an [int] can hold. *)
Lemma countStates_acc (l : list (string * PooledConnection.t)) (a b : Z) :
  0 ≤ a → 0 ≤ b →
  a + b + Z.of_nat (length l) ≤ MaxInt64 →
  foldl (fun acc conn =>
           if bool_decide (PooledConnection.State conn = StateConnected)
           then (int_incr acc.1, acc.2)
           else if bool_decide (PooledConnection.State conn = StateError)
           then (acc.1, int_incr acc.2)
           else acc)
        (a, b) l.*2
  = (a + Z.of_nat (length (filter
         (fun nc => PooledConnection.State nc.2 = StateConnected) l)),
     b + Z.of_nat (length (filter
         (fun nc => PooledConnection.State nc.2 = StateError) l))).
Proof.
  revert a b. induction l as [|[n conn] l IH]; intros a b Ha Hb Hlen.
  - cbn. f_equal; lia.
  - cbn [fmap list_fmap foldl snd fst]. rewrite !filter_cons. cbn [snd].
    cbn [length] in Hlen.
    unfold MaxInt64 in Hlen.
    destruct (decide (PooledConnection.State conn = StateConnected)) as [Hc|Hc].
    + rewrite (bool_decide_eq_true_2 _ Hc).
      rewrite decide_False by congruence.
      rewrite int_incr_small by (unfold MinInt64, MaxInt64; lia).
      rewrite IH by (unfold MaxInt64; lia). cbn [length]. f_equal; lia.
    + rewrite (bool_decide_eq_false_2 _ Hc).
      destruct (decide (PooledConnection.State conn = StateError)) as [He|He].
      * rewrite (bool_decide_eq_true_2 _ He).
        rewrite int_incr_small by (unfold MinInt64, MaxInt64; lia).
        rewrite IH by (unfold MaxInt64; lia). cbn [length]. f_equal; lia.
      * rewrite (bool_decide_eq_false_2 _ He).
        rewrite IH by (unfold MaxInt64; lia). done.
Qed.

Lemma countState_range (p : ConnectionPool) (st : ConnectionState) (k : nat) :
  length (filter (fun nc => PooledConnection.State nc.2 = st)
            (env_range env k (map_to_list (connections p))))
  = countState p st.
Proof.
  unfold countState. rewrite size_filter_map_to_list.
  apply Permutation_length. by rewrite env_range_perm.
Qed.

(** (C9) The snapshot of [GetPoolMetrics], taken in a state of the model
    (no health check is in flight in any of them), reports as active
    connections the number of entries of the registry, as connected count
    the number of entries in state Connected and as error count the number
    of entries in state Error; the two counts together never exceed the
    active connections.  The call leaves the pool as it is. *)
Theorem GetPoolMetrics_consistent (s : Sys) :
  Z.of_nat (size (connections (pool s))) ≤ MaxInt64 →
  let m := (GetPoolMetrics env s).1 in
  PoolMetrics.ActiveConnections m = Z.of_nat (size (connections (pool s)))
  ∧ PoolMetrics.ConnectedCount m
    = Z.of_nat (countState (pool s) StateConnected)
  ∧ PoolMetrics.ErrorCount m = Z.of_nat (countState (pool s) StateError)
  ∧ PoolMetrics.ConnectedCount m + PoolMetrics.ErrorCount m
    ≤ PoolMetrics.ActiveConnections m
  ∧ pool (GetPoolMetrics env s).2 = pool s.
Proof.
  intros Hsize m. subst m. unfold GetPoolMetrics, countStates. prims.
  cbn [PoolMetrics.ActiveConnections PoolMetrics.ConnectedCount
       PoolMetrics.ErrorCount].
  pose proof (env_range_perm env (tick s) (map_to_list (connections (pool s))))
    as Hperm.
  assert (length (env_range env (tick s) (map_to_list (connections (pool s))))
          = size (connections (pool s))) as Hlen.
  { by rewrite (Permutation_length Hperm), length_map_to_list. }
  rewrite countStates_acc by (rewrite ?Hlen; lia).
  cbn [fst snd]. rewrite !countState_range, !Z.add_0_l.
  split; [done|]. split; [done|]. split; [done|]. split; [|done].
  pose proof (filter_state_lengths
                (env_range env (tick s) (map_to_list (connections (pool s)))))
    as Hle.
  rewrite !countState_range, Hlen in Hle. lia.
Qed.


(** *** The health-check pass on one entry *)

(** What the monitor does with an entry in state Error that still holds
    a handle: [checkConnection] returns at its guard, before any ping.  The
    entry, the counters and the trace stay as they were, however the ping
    would have answered. *)
Lemma checkConnection_Error_skipped (conn : PooledConnection.t)
    (s : Sys) :
  PooledConnection.State conn = StateError →
  checkConnection env conn s = (conn, s).
Proof. intros Hst. apply checkConnection_skip. by right. Qed.

(** (X18) The threshold branch of [checkConnection].  When the ping of an
    entry that holds a handle and is not in state Error fails, and the
    incremented error count is at or above the configured maximum, that
    same call of [checkConnection] closes the handle, sets it to nil, sets
    the state to Disconnected and counts one failed ping; the calls made
    are the ping and the close, in that order.  An entry with a nil handle
    is skipped and keeps its state. *)
Theorem checkConnection_threshold (conn : PooledConnection.t) (s : Sys) :
  (∀ h err,
     PooledConnection.DB conn = Some h →
     PooledConnection.State conn ≠ StateError →
     env_Ping env (tick s) h = Some err →
     int_incr (PooledConnection.ErrorCount conn) >= maxErrorCount (pool s) →
     let conn' := (checkConnection env conn s).1 in
     let s' := (checkConnection env conn s).2 in
     PooledConnection.DB conn' = None
     ∧ PooledConnection.State conn' = StateDisconnected
     ∧ PooledConnection.ErrorCount conn'
       = int_incr (PooledConnection.ErrorCount conn)
     ∧ failedPings (pool s') = int_incr (failedPings (pool s))
     ∧ trace s' = trace s ++ [EvPing h (Some err);
                              EvClose h (env_Close env (S (tick s)) h)])
  ∧ (PooledConnection.DB conn = None →
     checkConnection env conn s = (conn, s)).
Proof.
  split.
  - intros h err Hdb Hst Hping Hmax conn' s'. subst conn' s'.
    rewrite (checkConnection_ping_failed conn s h err Hdb Hst Hping).
    rewrite (bool_decide_eq_true_2 _ Hmax). done.
  - intros Hdb. apply checkConnection_skip. by left.
Qed.

(** *** [createdAt] and the entries [GetConnection] replaces *)

Lemma checkLoop_entries (names : list string) (s : Sys) (name : string)
    (conn' : PooledConnection.t) :
  connections (pool (forM_ names (checkEntry env) s).2) !! name
  = Some conn' →
  ∃ conn, connections (pool s) !! name = Some conn
          ∧ PooledConnection.CreatedAt conn' = PooledConnection.CreatedAt conn
          ∧ PooledConnection.LastUsed conn' = PooledConnection.LastUsed conn.
Proof.
  revert s conn'.
  induction names as [|n names IH]; intros s conn' Hlook.
  - by exists conn'.
  - cbn [forM_] in Hlook. rewrite bind_run in Hlook.
    apply IH in Hlook as (mid & Hmid & Hca & Hlu).
    rewrite checkEntry_run in Hmid.
    destruct (connections (pool s) !! n) as [conn|] eqn:Hn.
    + cbn [snd pool connections set_connections] in Hmid.
      destruct (decide (name = n)) as [->|Hne].
      * rewrite lookup_insert_eq in Hmid. injection Hmid as <-.
        destruct (checkConnection_frame conn s)
          as (_ & _ & _ & _ & _ & _ & Hca' & Hlu').
        exists conn. rewrite Hn. split; [done|]. split; congruence.
      * rewrite lookup_insert_ne in Hmid by done. by exists mid.
    + by exists mid.
Qed.

Lemma healthCheck_entries (s : Sys) (name : string)
    (conn' : PooledConnection.t) :
  connections (pool (healthCheck env s).2) !! name = Some conn' →
  ∃ conn, connections (pool s) !! name = Some conn
          ∧ PooledConnection.CreatedAt conn' = PooledConnection.CreatedAt conn
          ∧ PooledConnection.LastUsed conn' = PooledConnection.LastUsed conn.
Proof.
  unfold healthCheck. rewrite !bind_run. intros Hlook.
  rewrite cleanupIdleConnections_lookup in Hlook.
  match type of Hlook with
  | match ?o with _ => _ end = _ => destruct o as [mid|] eqn:Hmid; [|done]
  end.
  destruct (shouldRemove _ _ mid); [done|]. injection Hlook as ->.
  apply checkLoop_entries in Hmid as (conn & Hconn & Hca & Hlu).
  by exists conn.
Qed.

(** (C6, amended) [CreatedAt] is written when [createConnection] builds the
    entry, before the open of the handle is attempted and whether or not
    it succeeds, and no other code writes it: a health check and the path
    of [GetConnection] that hands out a handle keep it.  Every call of
    [GetConnection] that takes the creation path on a configured name,
    a recreation after Disconnected included, replaces the entry, and the
    [CreatedAt] of the new entry is the reading of the clock at the start
    of that creation, whatever the entry before it held. *)
Theorem CreatedAt_lifetime (s : Sys) (name : string) :
  (∀ c,
     config.GetConnection (config (manager (pool s))) name = Some c →
     unhealthy (pool s) name →
     ∃ entry,
       connections (pool (GetConnection env name s).2) !! name = Some entry
       ∧ PooledConnection.CreatedAt entry
         = env_Now env (tick (touch env name s)))
  ∧ (∀ conn h,
       connections (pool s) !! name = Some conn →
       PooledConnection.State conn = StateConnected →
       PooledConnection.DB conn = Some h →
       ∃ entry,
         connections (pool (GetConnection env name s).2) !! name = Some entry
         ∧ PooledConnection.CreatedAt entry = PooledConnection.CreatedAt conn)
  ∧ (∀ conn',
       connections (pool (healthCheck env s).2) !! name = Some conn' →
       ∃ conn,
         connections (pool s) !! name = Some conn
         ∧ PooledConnection.CreatedAt conn' = PooledConnection.CreatedAt conn).
Proof.
  split; [|split].
  - intros c Hc Hun.
    destruct (GetConnection_creation_outcome s name c Hc Hun)
      as (new & entry & Hlook & _ & Hca & _).
    by exists entry.
  - intros conn h Hlook Hst Hdb.
    rewrite (GetConnection_fast_path s name conn h Hlook Hst Hdb).
    eexists. cbn. by rewrite lookup_insert_eq.
  - intros conn' Hlook.
    apply healthCheck_entries in Hlook as (conn & Hconn & Hca & _).
    by exists conn.
Qed.

(** [createConnection] stores its new entry over whatever the registry
    holds under the name. *)
Lemma createConnection_overwrites (p : ConnectionPool) (k : nat)
    (t : list Event) (name : string) (entry : PooledConnection.t)
    (c : config.Connection) :
  config.GetConnection (config (manager p)) name = Some c →
  createConnection env name
    {| pool := set_connections p (<[name := entry]> (connections p));
       tick := k; trace := t |}
  = createConnection env name {| pool := p; tick := k; trace := t |}.
Proof.
  intros Hc. unfold createConnection. prims. rewrite Hc. prims.
  rewrite insert_insert_eq. flat. by destruct p.
Qed.

Lemma GetConnection_manager (s : Sys) (name : string) :
  manager (pool (GetConnection env name s).2) = manager (pool s).
Proof.
  destruct (healthy_or_unhealthy (pool s) name)
    as [(conn & h & Hlook & Hst & Hdb) | Hun].
  - by rewrite (GetConnection_fast_path s name conn h Hlook Hst Hdb).
  - rewrite (GetConnection_creation_path _ _ Hun).
    destruct (config.GetConnection
                (config (manager (pool (touch env name s)))) name)
      as [c|] eqn:Hc.
    + destruct (createConnection_outcome _ _ _ Hc)
        as (new & entry & tc & Hp & _).
      rewrite Hp. flat. apply touch_manager.
    + rewrite (createConnection_not_configured _ _ Hc). apply touch_manager.
Qed.

Lemma GetConnection_failed_entry (s : Sys) (name : string)
    (c : config.Connection) :
  config.GetConnection (config (manager (pool s))) name = Some c →
  is_Err (GetConnection env name s).1 →
  ∃ conn', connections (pool (GetConnection env name s).2) !! name = Some conn'
           ∧ PooledConnection.State conn' = StateError
           ∧ PooledConnection.ErrorCount conn' = 1
           ∧ PooledConnection.LastPing conn' = zeroTime
           ∧ PooledConnection.DB conn' = None.
Proof.
  intros Hc Herr.
  destruct (healthy_or_unhealthy (pool s) name)
    as [(conn & h & Hlook & Hst & Hdb) | Hun].
  - by rewrite (GetConnection_fast_path s name conn h Hlook Hst Hdb) in Herr.
  - destruct (GetConnection_creation_outcome s name c Hc Hun)
      as (new & entry & Hlook & _ & _ & Hr).
    destruct (GetConnection env name s).1 as [h|e]; [done|].
    destruct Hr as (? & ? & ? & ? & _). by exists entry.
Qed.

(** (C10) On the creation path [GetConnection] stores a new entry under the
    name and nothing of the entry it replaces survives: started from two
    states that differ only in the entry under a configured name, neither
    entry being one the call hands out, the call returns the same result
    and ends in the same state.  So a failed call on a configured name
    leaves an error count of exactly 1, and so does any number of failed
    calls in a row: the count never builds up towards the maximum. *)
Theorem GetConnection_replaces_entry (p : ConnectionPool) (k : nat)
    (t : list Event) (name : string) (c : config.Connection) :
  config.GetConnection (config (manager p)) name = Some c →
  let with_entry (old : PooledConnection.t) : Sys :=
    {| pool := set_connections p (<[name := old]> (connections p));
       tick := k; trace := t |} in
  (∀ old old',
     PooledConnection.State old ≠ StateConnected
     ∨ PooledConnection.DB old = None →
     PooledConnection.State old' ≠ StateConnected
     ∨ PooledConnection.DB old' = None →
     GetConnection env name (with_entry old)
     = GetConnection env name (with_entry old'))
  ∧ (∀ s, manager (pool s) = manager p →
          is_Err (GetConnection env name s).1 →
          ∃ conn',
            connections (pool (GetConnection env name s).2) !! name
            = Some conn'
            ∧ PooledConnection.ErrorCount conn' = 1)
  ∧ (∀ s n, manager (pool s) = manager p →
            Forall is_Err (GetConnection_times env (S n) name s).1 →
            ∃ conn',
              connections (pool (GetConnection_times env (S n) name s).2)
                !! name = Some conn'
              ∧ PooledConnection.State conn' = StateError
              ∧ PooledConnection.ErrorCount conn' = 1).
Proof.
  intros Hc with_entry. split; [|split].
  - assert (∀ old,
              PooledConnection.State old ≠ StateConnected
              ∨ PooledConnection.DB old = None →
              GetConnection env name (with_entry old)
              = createConnection env name
                  {| pool := p; tick := S k; trace := t |}) as Hnew.
    { intros old Hold. subst with_entry.
      rewrite GetConnection_creation_path.
      - unfold touch. cbn [pool connections set_connections tick trace].
        rewrite lookup_insert_eq.
        rewrite (alter_alt_Some _ _ _ old) by apply lookup_insert_eq.
        rewrite insert_insert_eq.
        by apply (createConnection_overwrites p (S k) t name _ c).
      - intros conn. cbn. rewrite lookup_insert_eq. by intros [= <-]. }
    intros old old' Hold Hold'. by rewrite !Hnew.
  - intros s Hm Herr. rewrite <- Hm in Hc.
    destruct (GetConnection_failed_entry s name c Hc Herr)
      as (conn' & ? & ? & ? & _).
    by exists conn'.
  - intros s n. revert s. induction n as [|n IH]; intros s Hm Hall.
    + cbn [GetConnection_times] in *. rewrite !bind_run in *.
      cbn [ret fst snd] in *. apply Forall_cons in Hall as [Herr _].
      rewrite <- Hm in Hc.
      destruct (GetConnection_failed_entry s name c Hc Herr)
        as (conn' & ? & ? & ? & _).
      by exists conn'.
    + change (GetConnection_times env (S (S n)) name)
        with (r <- GetConnection env name ;;
              rs <- GetConnection_times env (S n) name ;;
              ret (r :: rs)) in *.
      rewrite !bind_run in *. cbn [ret fst snd] in *.
      apply Forall_cons in Hall as [_ Hall].
      apply IH; [|done]. by rewrite GetConnection_manager.
Qed.

End Properties.

(** ** The properties on the concrete installation *)

Lemma GetConnectionStatus_absent_witness :
  connections (pool (demoStart 3)) !! "never-configured" = None
  ∧ GetConnectionStatus upEnv "never-configured" (demoStart 3) =
      ({| ConnectionStatus.Name := "never-configured";
          ConnectionStatus.State := StateDisconnected;
          ConnectionStatus.LastUsed := zeroTime;
          ConnectionStatus.LastPing := zeroTime;
          ConnectionStatus.ErrorCount := 0;
          ConnectionStatus.CreatedAt := zeroTime;
          ConnectionStatus.IdleTime := 0;
          ConnectionStatus.ConnectedFor := 0 |}, demoStart 3).
Proof.
  split; [reflexivity|].
  apply (GetConnectionStatus_absent upEnv (demoStart 3) "never-configured").
  reflexivity.
Defined.


Lemma GetConnection_failure_witness :
  let s' := (GetConnection downEnv "db" (demoStart 3)).2 in
  let cause := errors_New "connection refused" in
  let ev := EvOpen "mysql" "reader:secret@tcp(localhost:3306)/app"
              (Err cause) in
  config.GetConnection (config (manager (pool (demoStart 3)))) "db"
  = Some demoConnection
  ∧ ev ∈ trace s'
  ∧ stepFailure ev = Some cause
  ∧ (∃ msg, (GetConnection downEnv "db" (demoStart 3)).1
            = Err (Errorf_w msg cause)
            ∧ errors_Unwrap (Errorf_w msg cause) = Some cause)
  ∧ ∃ conn', connections (pool s') !! "db" = Some conn'
             ∧ PooledConnection.State conn' = StateError
             ∧ PooledConnection.ErrorCount conn' = 1
             ∧ PooledConnection.DB conn' = None.
Proof.
  intros s' cause ev.
  assert (config.GetConnection (config (manager (pool (demoStart 3)))) "db"
          = Some demoConnection) as Hc by reflexivity.
  assert (ev ∈ trace s') as Hev.
  { vm_compute. apply list_elem_of_further, list_elem_of_here. }
  assert (stepFailure ev = Some cause) as Hfail by reflexivity.
  split; [exact Hc|]. split; [exact Hev|]. split; [exact Hfail|].
  apply (proj1 (GetConnection_failure downEnv (demoStart 3) "db"
                  demoConnection Hc) (trace s') ev cause).
  - reflexivity.
  - exact Hev.
  - exact Hfail.
Defined.

Lemma cleanupIdleConnections_reaps_witness :
  let s' := (cleanupIdleConnections upEnv crowded).2 in
  let a := demoEntry "a" (Some 1%nat) StateConnected 0 0 0 0 in
  let b := demoEntry "b" (Some 2%nat) StateError 0 0 1 0 in
  connections (pool crowded) !! "a" = Some a
  ∧ connections (pool crowded) !! "b" = Some b
  ∧ Time_Sub (env_Now upEnv (tick crowded)) (PooledConnection.LastUsed b)
    > maxIdleTime (pool crowded)
  ∧ connections (pool s') !! "a" = Some a
  ∧ connections (pool s') !! "b" = None
  ∧ ∃ before r after,
      trace s' = trace crowded ++ before
                 ++ [EvClose 2%nat r; EvRemoved "b"] ++ after.
Proof.
  intros s' a b.
  assert (connections (pool crowded) !! "a" = Some a) as Ha
    by (vm_compute; reflexivity).
  assert (connections (pool crowded) !! "b" = Some b) as Hb
    by (vm_compute; reflexivity).
  assert (Time_Sub (env_Now upEnv (tick crowded)) (PooledConnection.LastUsed b)
          > maxIdleTime (pool crowded)) as Hidle
    by (vm_compute; reflexivity).
  destruct (cleanupIdleConnections_reaps upEnv crowded)
    as (Hkeep & Hreap & _).
  split; [exact Ha|]. split; [exact Hb|]. split; [exact Hidle|].
  split; [apply (Hkeep "a"%string a Ha); reflexivity|].
  destruct (Hreap "b"%string b Hb) as [Hgone Hclosed].
  - discriminate.
  - exact Hidle.
  - split; [exact Hgone|]. apply (Hclosed 2%nat). reflexivity.
Defined.

Lemma GetConnection_not_configured_witness :
  let s1 := (GetConnection upEnv "db" (demoStart 3)).2 in
  reachable upEnv s1
  ∧ config.GetConnection (config (manager (pool s1))) "non-existent" = None
  ∧ GetConnection upEnv "non-existent" s1 =
      (Err (errors_New
              "connection 'non-existent' not found in configuration"), s1)
  ∧ connections (pool s1) !! "non-existent" = None.
Proof.
  intros s1.
  assert (reachable upEnv s1) as Hreach.
  { apply (reachable_step upEnv (demoStart 3)).
    - apply reachable_init.
    - apply step_GetConnection. }
  assert (config.GetConnection (config (manager (pool s1))) "non-existent"
          = None) as Hc by (vm_compute; reflexivity).
  split; [exact Hreach|]. split; [exact Hc|].
  destruct (GetConnection_not_configured upEnv s1 "non-existent" Hreach Hc)
    as (Hget & Hnone & _).
  split; [exact Hget | exact Hnone].
Defined.

Lemma GetPoolMetrics_consistent_witness :
  let m := (GetPoolMetrics upEnv crowded).1 in
  Z.of_nat (size (connections (pool crowded))) ≤ MaxInt64
  ∧ PoolMetrics.ActiveConnections m = 3
  ∧ PoolMetrics.ConnectedCount m = 1
  ∧ PoolMetrics.ErrorCount m = 2
  ∧ PoolMetrics.ConnectedCount m + PoolMetrics.ErrorCount m
    ≤ PoolMetrics.ActiveConnections m.
Proof.
  intros m.
  assert (Z.of_nat (size (connections (pool crowded))) ≤ MaxInt64) as Hsize.
  { vm_compute. discriminate. }
  destruct (GetPoolMetrics_consistent upEnv crowded Hsize)
    as (Hactive & Hconn & Herr & Hle & _).
  split; [exact Hsize|].
  split; [exact Hactive|]. split; [exact Hconn|]. split; [exact Herr|].
  exact Hle.
Defined.

(** (C1) The failing run, with a maximum of 3 errors.  A creation succeeds
    and stores handle 3; the first ping of the monitor fails and leaves the
    entry in state Error with an error count of 1 and its handle; every
    later ping of the handle would succeed.  The next tick of the monitor
    leaves the entry as it is (state Error, error count 1, the old
    [LastPing]), the count of successful pings where it was, and issues no
    ping at all: the guard of [checkConnection] returns on state Error. *)
Theorem Error_entry_is_not_pinged_again :
  let s1 := (GetConnection flakyEnv "db" (demoStart 3)).2 in
  let s2 := (healthCheck flakyEnv s1).2 in
  let s3 := (healthCheck flakyEnv s2).2 in
  let stuck := demoEntry "db" (Some 3%nat) StateError
                 (1 * second) (5 * second) 1 0 in
  connections (pool s2) !! "db" = Some stuck
  ∧ (∀ k, (tick s2 ≤ k)%nat → env_Ping flakyEnv k 3%nat = None)
  ∧ connections (pool s3) !! "db" = Some stuck
  ∧ PooledConnection.State stuck ≠ StateConnected
  ∧ successfulPings (pool s3) = successfulPings (pool s2)
  ∧ trace s3 = trace s2
  ∧ checkConnection flakyEnv stuck s2 = (stuck, s2).
Proof.
  intros s1 s2 s3 stuck.
  split; [vm_compute; reflexivity|]. split.
  { intros k Hk. change (tick s2) with 10%nat in Hk.
    cbv [flakyEnv demoEnv env_Ping at_tick].
    destruct (Nat.eqb_spec k 7) as [->|_]; [lia | reflexivity]. }
  split; [vm_compute; reflexivity|]. split; [discriminate|].
  split; [vm_compute; reflexivity|]. split; [vm_compute; reflexivity|].
  apply checkConnection_Error_skipped. reflexivity.
Qed.

(** (C2) The failing run, scenario 2 of the specification: a maximum of 2
    errors, a backend that answers the ping of the creation and of the
    first pass of the monitor and fails every ping after that.  The second
    pass counts the first error and leaves the entry in state Error with
    its handle 3.  One more failed ping would bring the error count to the
    maximum, and the handle should then be closed and the entry become
    Disconnected.  The third and the fourth pass do not ping the entry at
    all: the guard of [checkConnection] returns on state Error, so the
    error count stays at 1, below the maximum, the handle stays open and
    the entry stays in state Error; no pass, in whatever state of the pool,
    does anything with this entry. *)
Theorem Error_entry_is_never_closed_at_threshold :
  let s0 := (GetConnection dyingEnv "db" (demoStart 2)).2 in
  let s1 := (healthCheck dyingEnv s0).2 in
  let s2 := (healthCheck dyingEnv s1).2 in
  let s3 := (healthCheck dyingEnv s2).2 in
  let s4 := (healthCheck dyingEnv s3).2 in
  let err := errors_New "bad connection" in
  let healthy := demoEntry "db" (Some 3%nat) StateConnected
                   (1 * second) (8 * second) 0 0 in
  let stuck := demoEntry "db" (Some 3%nat) StateError
                 (1 * second) (8 * second) 1 0 in
  maxErrorCount (pool s0) = 2
  ∧ connections (pool s1) !! "db" = Some healthy
  ∧ connections (pool s2) !! "db" = Some stuck
  ∧ trace s2 = trace s1 ++ [EvPing 3%nat (Some err)]
  ∧ (∀ k, (tick s2 ≤ k)%nat → env_Ping dyingEnv k 3%nat = Some err)
  ∧ int_incr (PooledConnection.ErrorCount stuck) >= maxErrorCount (pool s2)
  ∧ connections (pool s3) !! "db" = Some stuck
  ∧ connections (pool s4) !! "db" = Some stuck
  ∧ PooledConnection.DB stuck ≠ None
  ∧ PooledConnection.State stuck ≠ StateDisconnected
  ∧ PooledConnection.ErrorCount stuck < maxErrorCount (pool s4)
  ∧ failedPings (pool s4) = failedPings (pool s2)
  ∧ trace s4 = trace s2
  ∧ ∀ s, checkConnection dyingEnv stuck s = (stuck, s).
Proof.
  intros s0 s1 s2 s3 s4 err healthy stuck.
  split; [vm_compute; reflexivity|]. split; [vm_compute; reflexivity|].
  split; [vm_compute; reflexivity|]. split; [vm_compute; reflexivity|].
  split.
  { intros k Hk. change (tick s2) with 15%nat in Hk.
    cbv [dyingEnv demoEnv env_Ping from_tick].
    destruct (Nat.leb_spec 11 k) as [_|Hlt]; [reflexivity | lia]. }
  split; [vm_compute; discriminate|].
  split; [vm_compute; reflexivity|]. split; [vm_compute; reflexivity|].
  split; [discriminate|]. split; [discriminate|].
  split; [vm_compute; reflexivity|].
  split; [vm_compute; reflexivity|]. split; [vm_compute; reflexivity|].
  intros s. apply checkConnection_Error_skipped. reflexivity.
Qed.

(** With a maximum of 1 error the first failed ping of the monitor is at
    the threshold: the handle is closed in that same call. *)
Lemma checkConnection_threshold_witness :
  let env := demoEnv never (at_tick 6) in
  let s1 := (GetConnection env "db" (demoStart 1)).2 in
  let conn := demoEntry "db" (Some 3%nat) StateConnected
                (1 * second) (5 * second) 0 0 in
  let err := errors_New "bad connection" in
  connections (pool s1) !! "db" = Some conn
  ∧ env_Ping env (tick s1) 3%nat = Some err
  ∧ int_incr (PooledConnection.ErrorCount conn) >= maxErrorCount (pool s1)
  ∧ PooledConnection.DB (checkConnection env conn s1).1 = None
  ∧ PooledConnection.State (checkConnection env conn s1).1
    = StateDisconnected
  ∧ PooledConnection.ErrorCount (checkConnection env conn s1).1 = 1
  ∧ trace (checkConnection env conn s1).2
    = trace s1 ++ [EvPing 3%nat (Some err); EvClose 3%nat None].
Proof.
  intros env s1 conn err.
  assert (env_Ping env (tick s1) 3%nat = Some err) as Hping
    by (vm_compute; reflexivity).
  assert (int_incr (PooledConnection.ErrorCount conn)
          >= maxErrorCount (pool s1)) as Hmax
    by (vm_compute; discriminate).
  split; [vm_compute; reflexivity|].
  split; [exact Hping|]. split; [exact Hmax|].
  destruct (proj1 (checkConnection_threshold env conn s1) 3%nat err)
    as (Hdb & Hst & Hec & _ & Htr).
  - reflexivity.
  - discriminate.
  - exact Hping.
  - exact Hmax.
  - split; [exact Hdb|]. split; [exact Hst|]. split; [exact Hec|]. exact Htr.
Defined.

(** (C6, as stated, does not hold) With a maximum of 1 error, a creation
    at time 0 is followed by a failed ping that closes the handle and
    leaves the entry Disconnected, and the next [GetConnection] recreates
    the entry; the [CreatedAt] of the recreated entry is the time of the
    recreation, 12 seconds, not the time 0 of the first creation.  A
    creation whose open is refused has written [CreatedAt] too. *)
Lemma CreatedAt_changes_on_recreation :
  let s1 := (GetConnection flakyEnv "db" (demoStart 1)).2 in
  let s2 := (healthCheck flakyEnv s1).2 in
  let s3 := (GetConnection flakyEnv "db" s2).2 in
  let first := demoEntry "db" (Some 3%nat) StateConnected
                 (1 * second) (5 * second) 0 0 in
  let closed := demoEntry "db" None StateDisconnected
                  (1 * second) (5 * second) 1 0 in
  let second_ := demoEntry "db" (Some 15%nat) StateConnected
                   (13 * second) (17 * second) 0 (12 * second) in
  connections (pool s1) !! "db" = Some first
  ∧ connections (pool s2) !! "db" = Some closed
  ∧ connections (pool s3) !! "db" = Some second_
  ∧ PooledConnection.CreatedAt second_ ≠ PooledConnection.CreatedAt first
  ∧ ∃ failed,
      connections (pool (GetConnection downEnv "db" s2).2) !! "db"
      = Some failed
      ∧ PooledConnection.DB failed = None
      ∧ PooledConnection.State failed = StateError
      ∧ PooledConnection.CreatedAt failed = 12 * second.
Proof.
  intros s1 s2 s3 first closed second_.
  split; [vm_compute; reflexivity|]. split; [vm_compute; reflexivity|].
  split; [vm_compute; reflexivity|]. split; [vm_compute; discriminate|].
  exists (demoEntry "db" None StateError (13 * second) 0 1 (12 * second)).
  split; [vm_compute; reflexivity|]. repeat split.
Qed.

Lemma CreatedAt_lifetime_witness :
  let s1 := (GetConnection flakyEnv "db" (demoStart 1)).2 in
  let s2 := (healthCheck flakyEnv s1).2 in
  config.GetConnection (config (manager (pool s2))) "db" = Some demoConnection
  ∧ unhealthy (pool s2) "db"
  ∧ (∃ entry,
       connections (pool (GetConnection flakyEnv "db" s2).2) !! "db"
       = Some entry
       ∧ PooledConnection.CreatedAt entry = 12 * second)
  ∧ (∃ entry,
       connections (pool (GetConnection flakyEnv "db" s1).2) !! "db"
       = Some entry
       ∧ PooledConnection.CreatedAt entry = 0)
  ∧ (∃ conn,
       connections (pool s1) !! "db" = Some conn
       ∧ PooledConnection.CreatedAt
           (demoEntry "db" None StateDisconnected
              (1 * second) (5 * second) 1 0)
         = PooledConnection.CreatedAt conn).
Proof.
  intros s1 s2.
  assert (config.GetConnection (config (manager (pool s2))) "db"
          = Some demoConnection) as Hc by (vm_compute; reflexivity).
  assert (unhealthy (pool s2) "db") as Hun.
  { intros conn Hlook. vm_compute in Hlook. injection Hlook as <-.
    left. discriminate. }
  split; [exact Hc|]. split; [exact Hun|].
  destruct (CreatedAt_lifetime flakyEnv s2 "db") as (Hnew & _ & _).
  destruct (CreatedAt_lifetime flakyEnv s1 "db") as (_ & Hfast & Hcheck).
  split; [exact (Hnew demoConnection Hc Hun)|]. split.
  - apply (Hfast (demoEntry "db" (Some 3%nat) StateConnected
                    (1 * second) (5 * second) 0 0) 3%nat);
      vm_compute; reflexivity.
  - apply Hcheck. vm_compute. reflexivity.
Defined.

Lemma GetConnection_replaces_entry_witness :
  let p := pool (demoStart 3) in
  let with_entry (old : PooledConnection.t) : Sys :=
    {| pool := set_connections p (<["db"%string := old]> (connections p));
       tick := 40; trace := [] |} in
  let old := demoEntry "db" None StateError (1 * second) 0 1 0 in
  let old' := demoEntry "db" (Some 9%nat) StateDisconnected
                (7 * second) (8 * second) 2 (5 * second) in
  config.GetConnection (config (manager p)) "db" = Some demoConnection
  ∧ GetConnection downEnv "db" (with_entry old)
    = GetConnection downEnv "db" (with_entry old')
  ∧ Forall is_Err (GetConnection_times downEnv 3 "db" (demoStart 3)).1
  ∧ ∃ conn',
      connections (pool (GetConnection_times downEnv 3 "db" (demoStart 3)).2)
        !! "db" = Some conn'
      ∧ PooledConnection.State conn' = StateError
      ∧ PooledConnection.ErrorCount conn' = 1.
Proof.
  intros p with_entry old old'.
  assert (config.GetConnection (config (manager p)) "db"
          = Some demoConnection) as Hc by reflexivity.
  assert (Forall is_Err (GetConnection_times downEnv 3 "db" (demoStart 3)).1)
    as Hall.
  { vm_compute. repeat constructor. }
  destruct (GetConnection_replaces_entry downEnv p 40 [] "db" demoConnection
              Hc) as (Hsame & _ & Hrepeat).
  split; [exact Hc|]. split.
  - apply (Hsame old old'); [right; reflexivity | left; discriminate].
  - split; [exact Hall|].
    apply (Hrepeat (demoStart 3) 2%nat); [reflexivity | exact Hall].
Defined.

(** ** More properties of the pool *)

Section MoreProperties.

Context (env : Env).

Ltac prims :=
  cbv [time_Since time_Now credManager_Get sql_Open DB_Ping DB_Close
       DB_configure range_connections store update
       bind ret get_pool modify_pool next_tick emit];
  cbn [pool tick trace fst snd connections manager cancelled pingInterval
       maxIdleTime maxErrorCount reconnectDelay totalConnections
       successfulPings failedPings set_connections set_totalConnections
       set_successfulPings set_failedPings set_cancelled].

Lemma pinged_app (a b : list Event) : pinged (a ++ b) = pinged a ++ pinged b.
Proof. apply omap_app. Qed.

Lemma closed_app (a b : list Event) : closed (a ++ b) = closed a ++ closed b.
Proof. apply omap_app. Qed.

Lemma pingTarget_Some (conn : PooledConnection.t) (h : Handle) :
  pingTarget conn = Some h
  ↔ PooledConnection.DB conn = Some h
    ∧ PooledConnection.State conn ≠ StateError.
Proof.
  unfold pingTarget. case_bool_decide as Hst.
  - split; [done | by intros [_ ?]].
  - split; [by intros -> | by intros [-> _]].
Qed.

Lemma pingTarget_None (conn : PooledConnection.t) :
  pingTarget conn = None
  ↔ PooledConnection.DB conn = None
    ∨ PooledConnection.State conn = StateError.
Proof.
  unfold pingTarget. case_bool_decide as Hst.
  - split; [by right | done].
  - split; [by left | by intros [? | ?]].
Qed.

(** (X1) The transitions of [checkConnection] on an entry that holds a
    handle and is not in state Error.  A ping that succeeds keeps the state
    and the handle, stores the time in [LastPing], resets the error count
    and counts one successful ping.  A ping that fails with the
    incremented error count still below the maximum puts the entry in state
    Error and counts one failed ping, but keeps the handle open: the only
    call made is the ping. *)
Theorem checkConnection_transitions (conn : PooledConnection.t) (s : Sys)
    (h : Handle) :
  PooledConnection.DB conn = Some h →
  PooledConnection.State conn ≠ StateError →
  let conn' := (checkConnection env conn s).1 in
  let s' := (checkConnection env conn s).2 in
  (env_Ping env (tick s) h = None →
   PooledConnection.State conn' = PooledConnection.State conn
   ∧ PooledConnection.DB conn' = Some h
   ∧ PooledConnection.ErrorCount conn' = 0
   ∧ PooledConnection.LastPing conn' = env_Now env (S (tick s))
   ∧ successfulPings (pool s') = int_incr (successfulPings (pool s))
   ∧ failedPings (pool s') = failedPings (pool s)
   ∧ trace s' = trace s ++ [EvPing h None])
  ∧ (∀ err,
       env_Ping env (tick s) h = Some err →
       int_incr (PooledConnection.ErrorCount conn) < maxErrorCount (pool s) →
       PooledConnection.State conn' = StateError
       ∧ PooledConnection.DB conn' = Some h
       ∧ PooledConnection.ErrorCount conn'
         = int_incr (PooledConnection.ErrorCount conn)
       ∧ PooledConnection.LastPing conn' = PooledConnection.LastPing conn
       ∧ failedPings (pool s') = int_incr (failedPings (pool s))
       ∧ successfulPings (pool s') = successfulPings (pool s)
       ∧ trace s' = trace s ++ [EvPing h (Some err)]).
Proof.
  intros Hdb Hst conn' s'. subst conn' s'. split.
  - intros Hping.
    rewrite (checkConnection_ping_ok env conn s h Hdb Hst Hping). done.
  - intros err Hping Hlt.
    rewrite (checkConnection_ping_failed env conn s h err Hdb Hst Hping).
    rewrite bool_decide_eq_false_2 by lia. done.
Qed.

(** What one call of [checkConnection] does to the trace, to the pool and
    to the fields of the entry that name it. *)
Lemma checkConnection_effect (conn : PooledConnection.t) (s : Sys) :
  let conn' := (checkConnection env conn s).1 in
  let s' := (checkConnection env conn s).2 in
  ∃ new,
    trace s' = trace s ++ new
    ∧ pinged new = option_list (pingTarget conn)
    ∧ Forall (fun ev => isCreationEvent ev = false) new
    ∧ PooledConnection.Config conn' = PooledConnection.Config conn.
Proof.
  destruct (pingTarget conn) as [h|] eqn:Htarget.
  - apply pingTarget_Some in Htarget as [Hdb Hst].
    destruct (env_Ping env (tick s) h) as [err|] eqn:Hping.
    + rewrite (checkConnection_ping_failed env conn s h err Hdb Hst Hping).
      destruct (bool_decide _); eexists; (split; [reflexivity|]);
        repeat split; repeat constructor.
    + rewrite (checkConnection_ping_ok env conn s h Hdb Hst Hping).
      eexists; (split; [reflexivity|]); repeat split; repeat constructor.
  - apply pingTarget_None in Htarget.
    rewrite (checkConnection_skip env conn s Htarget).
    exists []. cbn. rewrite app_nil_r. repeat split. constructor.
Qed.

(** One health check of the entry under [name]. *)
Lemma checkEntry_effect (name : string) (s : Sys) :
  let s' := (checkEntry env name s).2 in
  ∃ new,
    trace s' = trace s ++ new
    ∧ pinged new = from_option (fun conn => option_list (pingTarget conn)) []
                     (connections (pool s) !! name)
    ∧ Forall (fun ev => isCreationEvent ev = false) new
    ∧ manager (pool s') = manager (pool s)
    ∧ maxErrorCount (pool s') = maxErrorCount (pool s)
    ∧ maxIdleTime (pool s') = maxIdleTime (pool s)
    ∧ totalConnections (pool s') = totalConnections (pool s)
    ∧ (∀ other, other ≠ name →
         connections (pool s') !! other = connections (pool s) !! other)
    ∧ (∀ conn, connections (pool s) !! name = Some conn →
         ∃ conn', connections (pool s') !! name = Some conn'
                  ∧ PooledConnection.Name conn' = PooledConnection.Name conn
                  ∧ PooledConnection.Config conn'
                    = PooledConnection.Config conn
                  ∧ PooledConnection.CreatedAt conn'
                    = PooledConnection.CreatedAt conn
                  ∧ PooledConnection.LastUsed conn'
                    = PooledConnection.LastUsed conn)
    ∧ (connections (pool s) !! name = None →
       connections (pool s') !! name = None).
Proof.
  intros s'. subst s'. rewrite checkEntry_run.
  destruct (connections (pool s) !! name) as [conn|] eqn:Hlook.
  - destruct (checkConnection_effect conn s) as (new & Ht & Hp & Hnc & Hcfg).
    destruct (checkConnection_frame env conn s)
      as (_ & Hm & Hi & He & Htc & Hn & Hca & Hlu).
    exists new. cbn [snd pool trace connections set_connections manager
                     maxErrorCount maxIdleTime totalConnections from_option].
    split; [done|]. split; [done|]. split; [done|].
    split; [done|]. split; [done|]. split; [done|]. split; [done|].
    split; [|split].
    + intros other Hne. by rewrite lookup_insert_ne.
    + intros ? [= <-]. eexists. rewrite lookup_insert_eq. done.
    + done.
  - exists []. cbn. rewrite app_nil_r, Hlook. repeat split; done.
Qed.

Lemma omap_ext_in {A B : Type} (f g : A → option B) (l : list A) :
  (∀ x, x ∈ l → f x = g x) → omap f l = omap g l.
Proof.
  induction l as [|x l IH]; intros Hfg; [done|]. cbn.
  rewrite (Hfg x) by apply list_elem_of_here.
  rewrite IH; [done|]. intros y Hy. by apply Hfg, list_elem_of_further.
Qed.

Lemma omap_cons_option_list {A B : Type} (f : A → option B) (x : A)
    (l : list A) :
  omap f (x :: l) = option_list (f x) ++ omap f l.
Proof. cbn. by destruct (f x). Qed.

(** The first loop of [healthCheck], over the names of a snapshot. *)
Lemma checkLoop_effect (names : list string) (s : Sys) :
  NoDup names →
  let s' := (forM_ names (checkEntry env) s).2 in
  ∃ new,
    trace s' = trace s ++ new
    ∧ pinged new
      = omap (fun name => connections (pool s) !! name ≫= pingTarget) names
    ∧ Forall (fun ev => isCreationEvent ev = false) new
    ∧ manager (pool s') = manager (pool s)
    ∧ maxErrorCount (pool s') = maxErrorCount (pool s)
    ∧ maxIdleTime (pool s') = maxIdleTime (pool s)
    ∧ totalConnections (pool s') = totalConnections (pool s)
    ∧ (∀ name conn',
         connections (pool s') !! name = Some conn' →
         ∃ conn, connections (pool s) !! name = Some conn
                 ∧ PooledConnection.Name conn' = PooledConnection.Name conn
                 ∧ PooledConnection.Config conn'
                   = PooledConnection.Config conn
                 ∧ PooledConnection.CreatedAt conn'
                   = PooledConnection.CreatedAt conn
                 ∧ PooledConnection.LastUsed conn'
                   = PooledConnection.LastUsed conn).
Proof.
  revert s. induction names as [|n names IH]; intros s Hnd s'; subst s'.
  - exists []. cbn. rewrite app_nil_r. repeat split; try done.
    intros name conn' Hlook. by exists conn'.
  - apply NoDup_cons in Hnd as [Hn Hnd]. cbn [forM_]. rewrite bind_run.
    destruct (checkEntry_effect n s)
      as (new1 & Ht1 & Hp1 & Hc1 & Hm1 & He1 & Hi1 & Htc1 & Hother & Hsame
          & Hnone).
    destruct (IH (checkEntry env n s).2 Hnd)
      as (new2 & Ht2 & Hp2 & Hc2 & Hm2 & He2 & Hi2 & Htc2 & Hentries).
    exists (new1 ++ new2).
    split; [by rewrite Ht2, Ht1, app_assoc|]. split.
    { rewrite pinged_app, Hp1, Hp2, omap_cons_option_list. f_equal.
      - by destruct (connections (pool s) !! n).
      - apply omap_ext_in. intros name Hin. rewrite Hother; [done|].
        intros ->. done. }
    split; [by apply Forall_app|].
    split; [congruence|]. split; [congruence|]. split; [congruence|].
    split; [congruence|].
    intros name conn' Hlook.
    apply Hentries in Hlook as (mid & Hmid & Hn1 & Hcfg1 & Hca1 & Hlu1).
    destruct (decide (name = n)) as [->|Hne].
    + destruct (connections (pool s) !! n) as [conn|] eqn:Hlook.
      * destruct (Hsame conn eq_refl)
          as (mid' & Hmid' & Hn2 & Hcfg2 & Hca2 & Hlu2).
        assert (mid' = mid) as -> by congruence.
        exists conn. split; [done|]. repeat split; congruence.
      * rewrite Hnone in Hmid by done. done.
    + rewrite Hother in Hmid by done. by exists mid.
Qed.

Lemma removeConnection_events (name : string) (s : Sys) :
  ∃ new,
    trace (removeConnection env name s).2 = trace s ++ new
    ∧ pinged new = []
    ∧ Forall (fun ev => isCreationEvent ev = false) new.
Proof.
  destruct (connections (pool s) !! name) as [conn|] eqn:Hlook.
  - eexists. split; [by apply removeConnection_trace|].
    destruct (PooledConnection.DB conn); split; try done;
      repeat constructor.
  - exists []. unfold removeConnection. prims. rewrite Hlook.
    rewrite app_nil_r. repeat split. constructor.
Qed.

Lemma removeAll_events (names : list string) (s : Sys) :
  ∃ new,
    trace (forM_ names (removeConnection env) s).2 = trace s ++ new
    ∧ pinged new = []
    ∧ Forall (fun ev => isCreationEvent ev = false) new.
Proof.
  revert s. induction names as [|name names IH]; intros s.
  - exists []. cbn. rewrite app_nil_r. repeat split. constructor.
  - cbn [forM_]. rewrite bind_run.
    destruct (removeConnection_events name s) as (new1 & Ht1 & Hp1 & Hc1).
    destruct (IH (removeConnection env name s).2) as (new2 & Ht2 & Hp2 & Hc2).
    exists (new1 ++ new2). split; [by rewrite Ht2, Ht1, app_assoc|].
    split; [by rewrite pinged_app, Hp1, Hp2 | by apply Forall_app].
Qed.

(** A whole pass of [healthCheck], read from the state before it. *)
Lemma healthCheck_effect (s : Sys) :
  let s' := (healthCheck env s).2 in
  ∃ new,
    trace s' = trace s ++ new
    ∧ pinged new
      = omap (fun nc => pingTarget nc.2)
          (env_range env (tick s) (map_to_list (connections (pool s))))
    ∧ Forall (fun ev => isCreationEvent ev = false) new
    ∧ manager (pool s') = manager (pool s)
    ∧ maxErrorCount (pool s') = maxErrorCount (pool s)
    ∧ maxIdleTime (pool s') = maxIdleTime (pool s)
    ∧ totalConnections (pool s') = totalConnections (pool s)
    ∧ (∀ name conn',
         connections (pool s') !! name = Some conn' →
         ∃ conn, connections (pool s) !! name = Some conn
                 ∧ PooledConnection.Name conn' = PooledConnection.Name conn
                 ∧ PooledConnection.Config conn'
                   = PooledConnection.Config conn
                 ∧ PooledConnection.CreatedAt conn'
                   = PooledConnection.CreatedAt conn
                 ∧ PooledConnection.LastUsed conn'
                   = PooledConnection.LastUsed conn).
Proof.
  intros s'. subst s'. unfold healthCheck. rewrite !bind_run.
  set (order := env_range env (tick s) (map_to_list (connections (pool s)))).
  set (s0 := (range_connections env s).2).
  change (range_connections env s).1 with order.
  assert (order ≡ₚ map_to_list (connections (pool s))) as Hperm
    by apply env_range_perm.
  assert (NoDup order.*1) as Hnd.
  { rewrite Hperm. apply NoDup_fst_map_to_list. }
  destruct (checkLoop_effect order.*1 s0 Hnd)
    as (new1 & Ht1 & Hp1 & Hc1 & Hm1 & He1 & Hi1 & Htc1 & Hentries).
  set (s1 := (forM_ order.*1 (checkEntry env) s0).2) in *.
  rewrite cleanupIdleConnections_run.
  match goal with
  | |- context [forM_ ?names (removeConnection env) ?st] =>
      destruct (removeAll_events names st) as (new2 & Ht2 & Hp2 & Hc2);
      pose proof (removeAll_pool env names st) as Hpool
  end.
  cbn [trace pool] in Ht2, Hpool.
  exists (new1 ++ new2). rewrite Ht2, Hpool, Ht1.
  cbn [manager maxErrorCount maxIdleTime totalConnections set_connections
       connections].
  split; [by rewrite app_assoc|]. split.
  { rewrite pinged_app, Hp1, Hp2, app_nil_r.
    change (connections (pool s0)) with (connections (pool s)).
    clear -Hperm. 
    assert (∀ nc, nc ∈ order → connections (pool s) !! nc.1 = Some nc.2)
      as Hin.
    { intros [n c] Hnc. rewrite Hperm in Hnc.
      by apply elem_of_map_to_list in Hnc. }
    clearbody order. clear Hperm.
    induction order as [|nc order IH]; [done|].
    cbn. rewrite (Hin nc) by apply list_elem_of_here. cbn.
    rewrite IH; [done|]. intros ? ?. by apply Hin, list_elem_of_further. }
  split; [by apply Forall_app|].
  split; [done|]. split; [done|]. split; [done|]. split; [done|].
  intros name conn' Hlook. apply Hentries.
  rewrite lookup_foldl_delete in Hlook. by destruct (decide _).
Qed.

(** (X2) A pass of the monitor pings, once each and in the order of its
    snapshot, the handles of exactly those entries that hold a handle and
    are not in state Error; it pings nothing else. *)
Theorem healthCheck_pings (s : Sys) :
  ∃ new,
    trace (healthCheck env s).2 = trace s ++ new
    ∧ pinged new
      = omap (fun nc => pingTarget nc.2)
          (env_range env (tick s) (map_to_list (connections (pool s)))).
Proof.
  destruct (healthCheck_effect s) as (new & Ht & Hp & _). by exists new.
Qed.

(** (X3) A pass of the monitor only pings, closes and removes: it resolves
    no credential, opens and configures no handle, adds no entry to the
    registry, leaves the count of created connections and the settings of
    the pool as they were, and every entry it leaves in the registry has
    kept its name, its configuration, its [CreatedAt] and its [LastUsed]
    (a ping of the monitor is not a use). *)
Theorem healthCheck_frame (s : Sys) :
  let s' := (healthCheck env s).2 in
  (∃ new, trace s' = trace s ++ new
          ∧ Forall (fun ev => isCreationEvent ev = false) new)
  ∧ totalConnections (pool s') = totalConnections (pool s)
  ∧ manager (pool s') = manager (pool s)
  ∧ maxErrorCount (pool s') = maxErrorCount (pool s)
  ∧ maxIdleTime (pool s') = maxIdleTime (pool s)
  ∧ (∀ name conn',
       connections (pool s') !! name = Some conn' →
       ∃ conn, connections (pool s) !! name = Some conn
               ∧ PooledConnection.Name conn' = PooledConnection.Name conn
               ∧ PooledConnection.Config conn' = PooledConnection.Config conn
               ∧ PooledConnection.CreatedAt conn'
                 = PooledConnection.CreatedAt conn
               ∧ PooledConnection.LastUsed conn'
                 = PooledConnection.LastUsed conn).
Proof.
  intros s'. subst s'.
  destruct (healthCheck_effect s)
    as (new & Ht & _ & Hc & Hm & He & Hi & Htc & Hentries).
  split; [by exists new|]. done.
Qed.

(** *** The shape of the entries of a reachable state *)

Lemma entry_shape_settings (p p' : ConnectionPool) (name : string)
    (conn : PooledConnection.t) :
  manager p' = manager p →
  maxErrorCount p' = maxErrorCount p →
  entry_shape p name conn → entry_shape p' name conn.
Proof. unfold entry_shape. by intros -> ->. Qed.

Lemma entry_shape_LastUsed (p : ConnectionPool) (name : string)
    (conn : PooledConnection.t) (t : Time) :
  entry_shape p name conn →
  entry_shape p name (PooledConnection.set_LastUsed conn t).
Proof. done. Qed.

Lemma forM__preserves {A : Type} (P : Sys → Prop) (l : list A)
    (f : A → M unit) :
  (∀ a s, P s → P (f a s).2) → ∀ s, P s → P (forM_ l f s).2.
Proof.
  intros Hf. induction l as [|a l IH]; intros s Hs; [done|].
  cbn [forM_]. rewrite bind_run. by apply IH, Hf.
Qed.

Lemma shaped_touch (s : Sys) (name : string) :
  entries_shaped (pool s) → entries_shaped (pool (touch env name s)).
Proof.
  intros Hs other conn'. unfold touch.
  destruct (connections (pool s) !! name) as [conn|] eqn:Hlook; [|apply Hs].
  cbn [pool connections set_connections].
  destruct (decide (other = name)) as [->|Hne].
  - rewrite lookup_alter_eq, Hlook. intros [= <-].
    by apply (entry_shape_LastUsed (pool s)), Hs.
  - rewrite lookup_alter_ne by done. apply Hs.
Qed.

Lemma shaped_createConnection (s : Sys) (name : string) :
  entries_shaped (pool s) →
  entries_shaped (pool (createConnection env name s).2).
Proof.
  intros Hs.
  destruct (config.GetConnection (config (manager (pool s))) name)
    as [c|] eqn:Hc.
  - destruct (createConnection_outcome env _ _ _ Hc)
      as (new & entry & tc & Hp & _ & Hn & Hcfg & _ & _ & Hr).
    rewrite Hp. intros other conn'.
    cbn [connections set_connections set_totalConnections].
    destruct (decide (other = name)) as [->|Hne].
    + rewrite lookup_insert_eq. intros [= <-].
      split; [done|]. split; [by rewrite Hcfg|].
      destruct (createConnection env name s).1 as [h|e].
      * destruct Hr as (Hst & Hdb & Hec & _). left.
        split; [done|]. split; [by rewrite Hdb | done].
      * destruct Hr as (Hst & Hdb & Hec & _). right. left.
        split; [done|]. split; [done|]. by rewrite Hdb.
    + rewrite lookup_insert_ne by done. intros Hlook.
      by apply (entry_shape_settings (pool s)), Hs.
  - by rewrite (createConnection_not_configured env _ _ Hc).
Qed.

Lemma shaped_GetConnection (s : Sys) (name : string) :
  entries_shaped (pool s) →
  entries_shaped (pool (GetConnection env name s).2).
Proof.
  intros Hs.
  destruct (healthy_or_unhealthy (pool s) name)
    as [(conn & h & Hlook & Hst & Hdb) | Hun].
  - rewrite (GetConnection_fast_path env s name conn h Hlook Hst Hdb).
    intros other conn'. cbn [snd pool connections set_connections].
    destruct (decide (other = name)) as [->|Hne].
    + rewrite lookup_insert_eq. intros [= <-].
      by apply (entry_shape_LastUsed (pool s)), Hs.
    + rewrite lookup_insert_ne by done. apply Hs.
  - rewrite (GetConnection_creation_path env _ _ Hun).
    by apply shaped_createConnection, shaped_touch.
Qed.

Lemma shaped_checkEntry (name : string) (s : Sys) :
  entries_shaped (pool s) →
  entries_shaped (pool (checkEntry env name s).2).
Proof.
  intros Hs. rewrite checkEntry_run.
  destruct (connections (pool s) !! name) as [conn|] eqn:Hlook; [|done].
  pose proof (Hs name conn Hlook) as (Hn & Hcfg & Hshape).
  destruct (checkConnection_frame env conn s)
    as (_ & Hm & _ & He & _ & _ & _ & _).
  intros other conn'. cbn [snd pool connections set_connections].
  destruct (decide (other = name)) as [->|Hne].
  2:{ rewrite lookup_insert_ne by done. intros Hother.
      by apply (entry_shape_settings (pool s)), Hs. }
  rewrite lookup_insert_eq. intros [= <-].
  apply (entry_shape_settings (pool s)); [done | done |].
  destruct (pingTarget conn) as [h|] eqn:Htarget.
  - apply pingTarget_Some in Htarget as [Hdb Hst].
    assert (PooledConnection.State conn = StateConnected
            ∧ PooledConnection.ErrorCount conn = 0) as [Hconn Hec].
    { destruct Hshape as [(? & _ & ?) | [(? & _) | (_ & Hnil & _)]];
        [done | done | congruence]. }
    destruct (env_Ping env (tick s) h) as [err|] eqn:Hping.
    + rewrite (checkConnection_ping_failed env conn s h err Hdb Hst Hping).
      rewrite Hec. change (int_incr 0) with 1.
      case_bool_decide as Hmax; cbn [fst].
      * split; [done|]. split; [done|]. right. right.
        cbn. repeat split; try done. lia.
      * split; [done|]. split; [done|]. right. left.
        cbn. repeat split; try done. intros _. lia.
    + rewrite (checkConnection_ping_ok env conn s h Hdb Hst Hping).
      cbn [fst]. split; [done|]. split; [done|]. left.
      cbn. rewrite Hconn, Hdb. done.
  - apply pingTarget_None in Htarget.
    by rewrite (checkConnection_skip env conn s Htarget).
Qed.

Lemma shaped_cleanupIdleConnections (s : Sys) :
  entries_shaped (pool s) →
  entries_shaped (pool (cleanupIdleConnections env s).2).
Proof.
  intros Hs name conn Hlook.
  rewrite cleanupIdleConnections_lookup in Hlook.
  rewrite cleanupIdleConnections_run, removeAll_pool.
  apply (entry_shape_settings (pool s)); [done | done |]. apply Hs.
  destruct (connections (pool s) !! name) as [conn0|]; [|done].
  by destruct (shouldRemove _ _ conn0).
Qed.

Lemma shaped_healthCheck (s : Sys) :
  entries_shaped (pool s) → entries_shaped (pool (healthCheck env s).2).
Proof.
  intros Hs. unfold healthCheck. rewrite !bind_run.
  apply shaped_cleanupIdleConnections.
  apply (forM__preserves (fun s => entries_shaped (pool s))); [|done].
  intros name s0. apply shaped_checkEntry.
Qed.

Lemma shaped_step (s s' : Sys) :
  step env s s' → entries_shaped (pool s) → entries_shaped (pool s').
Proof.
  intros Hstep Hs. destruct Hstep.
  - by apply shaped_GetConnection.
  - unfold TestConnection. rewrite bind_run.
    destruct (GetConnection env name s).1 as [h|e].
    + rewrite keeps_pool_DB_Ping. by apply shaped_GetConnection.
    + by apply shaped_GetConnection.
  - by rewrite keeps_pool_GetConnectionStatus.
  - by rewrite keeps_pool_GetAllConnectionStatus.
  - by rewrite keeps_pool_GetPoolMetrics.
  - rewrite Close_pool. intros name conn. cbn. by rewrite lookup_empty.
  - by apply shaped_healthCheck.
  - by apply shaped_checkEntry.
  - destruct (checkConnection_frame env conn s)
      as (Hconns & Hm & _ & He & _).
    intros name conn'. rewrite Hconns. intros Hlook.
    by apply (entry_shape_settings (pool s)), Hs.
  - by apply shaped_cleanupIdleConnections.
Qed.

(** (X4) In every reachable state, every entry of the registry carries its
    key as name and the static configuration of that name, and is in one
    of three shapes: Connected, with a handle and an error count of 0;
    Error, with an error count of 1, and holding a handle only if the
    maximum of errors is above 1; Disconnected, with a nil handle and an
    error count of 1, which occurs only if the maximum of errors is at
    most 1.  No entry is left Connecting or Idle, and no error count
    exceeds 1. *)
Theorem reachable_entries_shaped (s : Sys) (name : string)
    (conn : PooledConnection.t) :
  reachable env s →
  connections (pool s) !! name = Some conn →
  entry_shape (pool s) name conn
  ∧ PooledConnection.State conn ≠ StateConnecting
  ∧ PooledConnection.State conn ≠ StateIdle
  ∧ 0 ≤ PooledConnection.ErrorCount conn ≤ 1.
Proof.
  intros Hreach Hlook.
  assert (entries_shaped (pool s)) as Hs.
  { clear name conn Hlook. induction Hreach as [mgr k | s s' _ IH Hstep].
    - intros name conn. cbn. by rewrite lookup_empty.
    - by apply (shaped_step s s'). }
  pose proof (Hs name conn Hlook) as Hshape. split; [done|].
  destruct Hshape as (_ & _ & [(-> & _ & ->) | [(-> & -> & _)
                                               | (-> & _ & -> & _)]]);
    repeat split; (done || lia).
Qed.

(** *** [Close] *)

Lemma closeAll_effect (conns : list PooledConnection.t) (s : Sys) :
  let s' :=
    (forM_ conns (fun conn =>
       match PooledConnection.DB conn with
       | Some db => DB_Close env db ;;; ret tt
       | None => ret tt
       end) s).2 in
  ∃ new,
    trace s' = trace s ++ new
    ∧ closed new = omap PooledConnection.DB conns
    ∧ Forall (fun ev => ∃ h r, ev = EvClose h r) new
    ∧ pool s' = pool s.
Proof.
  revert s. induction conns as [|conn conns IH]; intros s s'; subst s'.
  - exists []. cbn. rewrite app_nil_r. repeat split. constructor.
  - cbn [forM_]. rewrite bind_run.
    destruct (PooledConnection.DB conn) as [db|] eqn:Hdb.
    + match goal with
      | |- context [forM_ conns _ ?st] =>
          destruct (IH st) as (new & Ht & Hc & Hall & Hp)
      end.
      exists (EvClose db (env_Close env (tick s) db) :: new).
      rewrite Ht, Hp. prims. split; [by rewrite <- app_assoc|].
      split.
      { unfold closed in *. by rewrite !omap_cons_option_list, Hdb, Hc. }
      split; [|done]. constructor; [by eexists _, _ | done].
    + destruct (IH s) as (new & Ht & Hc & Hall & Hp).
      exists new. cbn [ret snd]. split; [done|].
      split; [by rewrite omap_cons_option_list, Hdb|]. done.
Qed.

Lemma omap_list_fmap {A B C : Type} (f : A → B) (g : B → option C)
    (l : list A) :
  omap g (f <$> l) = omap (fun x => g (f x)) l.
Proof.
  induction l as [|x l IH]; [done|]. cbn. by rewrite IH.
Qed.

Lemma Close_result (s : Sys) : (Close env s).1 = None.
Proof. unfold Close. by rewrite !bind_run. Qed.

Lemma Close_effect (s : Sys) :
  (Close env s).1 = None
  ∧ pool (Close env s).2
    = set_connections (set_cancelled (pool s) true) ∅
  ∧ ∃ new,
      trace (Close env s).2 = trace s ++ new
      ∧ closed new
        = omap (fun nc => PooledConnection.DB nc.2)
            (env_range env (tick s) (map_to_list (connections (pool s))))
      ∧ Forall (fun ev => ∃ h r, ev = EvClose h r) new.
Proof.
  split; [apply Close_result|]. split; [apply Close_pool|].
  unfold Close. rewrite !bind_run. cbn [ret modify_pool fst snd trace].
  match goal with
  | |- context [forM_ ?conns _ ?st] =>
      destruct (closeAll_effect conns st) as (new & Ht & Hc & Hall & _)
  end.
  exists new. split; [exact Ht|]. split; [|done].
  rewrite Hc. prims. by rewrite omap_list_fmap.
Qed.

(** (X5) [Close] sets the cancellation flag, closes the handle of every
    entry that holds one, once each and in the order of its iteration,
    makes no other call, empties the registry and returns nil, whatever the
    closes return; the counters and the settings of the pool stay. *)
Theorem Close_closes_every_handle (s : Sys) :
  (Close env s).1 = None
  ∧ pool (Close env s).2
    = set_connections (set_cancelled (pool s) true) ∅
  ∧ ∃ new,
      trace (Close env s).2 = trace s ++ new
      ∧ closed new
        = omap (fun nc => PooledConnection.DB nc.2)
            (env_range env (tick s) (map_to_list (connections (pool s))))
      ∧ Forall (fun ev => ∃ h r, ev = EvClose h r) new.
Proof. apply Close_effect. Qed.

(** (X6) After [Close] the pool reports every name as Disconnected, with
    zero timestamps, and a second [Close] finds nothing to close: it
    returns nil, makes no call and leaves the pool as the first left it. *)
Theorem Close_then (s : Sys) (name : string) :
  let s' := (Close env s).2 in
  GetConnectionStatus env name s' =
    ({| ConnectionStatus.Name := name;
        ConnectionStatus.State := StateDisconnected;
        ConnectionStatus.LastUsed := zeroTime;
        ConnectionStatus.LastPing := zeroTime;
        ConnectionStatus.ErrorCount := 0;
        ConnectionStatus.CreatedAt := zeroTime;
        ConnectionStatus.IdleTime := 0;
        ConnectionStatus.ConnectedFor := 0 |}, s')
  ∧ (Close env s').1 = None
  ∧ pool (Close env s').2 = pool s'
  ∧ trace (Close env s').2 = trace s'.
Proof.
  intros s'. subst s'. pose proof (Close_pool env s) as Hp.
  assert (connections (pool (Close env s).2) = ∅) as Hempty
    by by rewrite Hp.
  split.
  { unfold GetConnectionStatus. prims. by rewrite Hempty, lookup_empty. }
  set (s' := (Close env s).2) in *.
  destruct (Close_effect s') as (Hr & Hp' & new & Ht' & Hc & Hall).
  split; [done|]. split.
  { rewrite Hp', Hp. done. }
  assert (new = []) as ->; [|by rewrite Ht', app_nil_r].
  rewrite Hempty, map_to_list_empty in Hc.
  pose proof (env_range_perm env (tick s') []) as Hnil.
  apply Permutation_nil_r in Hnil. rewrite Hnil in Hc. cbn in Hc.
  destruct new as [|ev new]; [done|].
  apply Forall_cons in Hall as [(h & r & ->) _]. done.
Qed.

(** (X7) [GetConnection] never reads the cancellation flag: on a pool that
    [Close] has cancelled it returns what it returns on the same pool not
    cancelled, and makes the same changes; a closed pool still creates and
    hands out connections. *)
Theorem GetConnection_ignores_cancelled (b : bool) (s : Sys)
    (name : string) :
  GetConnection env name (with_cancelled b s)
  = ((GetConnection env name s).1,
     with_cancelled b (GetConnection env name s).2).
Proof.
  destruct s as [p k t]. destruct p.
  unfold with_cancelled, GetConnection, createConnection,
    createRawConnection, config.GetConnection.
  prims.
  repeat match goal with
         | |- context [match ?x with _ => _ end] =>
             match x with
             | context [match _ with _ => _ end] => fail 1
             | _ => destruct x eqn:?; prims
             end
         | |- context [if ?x then _ else _] =>
             match x with
             | context [if _ then _ else _] => fail 1
             | context [match _ with _ => _ end] => fail 1
             | _ => destruct x eqn:?; prims
             end
         end;
    try reflexivity.
Qed.

Ltac branches :=
  repeat match goal with
         | |- context [match ?x with _ => _ end] =>
             match x with
             | context [match _ with _ => _ end] => fail 1
             | _ => destruct x eqn:?; prims
             end
         | |- context [if ?x then _ else _] =>
             match x with
             | context [if _ then _ else _] => fail 1
             | context [match _ with _ => _ end] => fail 1
             | _ => destruct x eqn:?; prims
             end
         end.

Ltac members H :=
  repeat (apply elem_of_cons in H as [H|H];
          [first [discriminate H | injection H as ? ?; subst] |]);
  try (by apply elem_of_nil in H).

(** (X8) The only handle [GetConnection] ever closes is one it has opened
    in that same call (the call then fails on the initial ping).  A handle
    opened earlier, such as the one still held by an entry the call
    replaces, is left open. *)
Theorem GetConnection_closes_only_its_own (s : Sys) (name : string)
    (new : list Event) (h : Handle) (r : option error) :
  trace (GetConnection env name s).2 = trace s ++ new →
  EvClose h r ∈ new →
  (tick s ≤ h)%nat
  ∧ (∃ driverName dsn, EvOpen driverName dsn (Ok h) ∈ new)
  ∧ ∃ err, (GetConnection env name s).1
           = Err (Errorf_w "failed to ping database" err).
Proof.
  destruct s as [p k t]. destruct p.
  unfold GetConnection, createConnection, createRawConnection,
    config.GetConnection.
  prims. branches; intros Ht Hin;
    rewrite <- ?app_assoc in Ht; cbn [app] in Ht;
    first [ apply app_inv_head in Ht
          | rewrite <- (app_nil_r t) in Ht at 1; apply app_inv_head in Ht ];
    subst new; members Hin.
  all: split; [lia|]; split; [|by eexists];
    eexists _, _; repeat first [apply list_elem_of_here
                               | apply list_elem_of_further].
Qed.

(** (X9) [createRawConnection] stops at its first failure and leaves the
    pool alone.  With an empty user name in the configuration it never
    asks the credential manager.  When the credential manager fails, it
    returns that failure wrapped in a message that names the connection and
    opens nothing.  When the type of the connection is neither [mysql] nor
    [postgres] it opens nothing either, and, the credentials having been
    resolved first, returns the unsupported-type error. *)
Theorem createRawConnection_first_failure (c : config.Connection)
    (name : string) (s : Sys) (new : list Event) :
  trace (createRawConnection env c name s).2 = trace s ++ new →
  let r := (createRawConnection env c name s).1 in
  let opens_nothing :=
    Forall (fun ev => match ev with EvOpen _ _ _ => False | _ => True end)
      new in
  pool (createRawConnection env c name s).2 = pool s
  ∧ (config.Username c = ""%string →
     Forall (fun ev => match ev with EvGet _ _ _ => False | _ => True end)
       new)
  ∧ (∀ username cause,
       EvGet name username (Err cause) ∈ new →
       r = Err (Errorf_w ("failed to get credentials for connection '"
                          +:+ name +:+ "'") cause)
       ∧ opens_nothing)
  ∧ (config.Type_ c ≠ "mysql"%string →
     config.Type_ c ≠ "postgres"%string →
     opens_nothing
     ∧ ((∀ username cause, EvGet name username (Err cause) ∉ new) →
        r = Err (Errorf_w "failed to build connection string"
                   (errors_New ("unsupported database type: "
                                +:+ config.Type_ c))))).
Proof.
  destruct s as [p k t].
  unfold createRawConnection, buildDSN. prims.
  branches; intros Ht;
    rewrite <- ?app_assoc in Ht; cbn [app] in Ht;
    first [ apply app_inv_head in Ht
          | rewrite <- (app_nil_r t) in Ht at 1; apply app_inv_head in Ht ];
    subst new; cbn zeta;
    repeat match goal with
           | H : String.eqb _ _ = true |- _ => apply String.eqb_eq in H
           | H : String.eqb _ _ = false |- _ => apply String.eqb_neq in H
           | H : negb _ = true |- _ => apply negb_true_iff in H
           | H : negb _ = false |- _ => apply negb_false_iff in H
           end.
  all: split; [reflexivity|].
  all: split; [intros Huser; try congruence; repeat constructor|].
  all: split;
    [ intros username cause Hin; members Hin;
      split; first [reflexivity | repeat constructor]
    | intros Hmysql Hpg; try congruence ].
  all: split; [repeat constructor|].
  all: intros Hnone; try reflexivity.
  all: exfalso; eapply Hnone; apply list_elem_of_here.
Qed.

(** *** [TestConnection] and the status calls *)

Lemma GetConnection_Ok_entry (s : Sys) (name : string) (h : Handle) :
  (GetConnection env name s).1 = Ok h →
  (∃ conn, connections (pool (GetConnection env name s).2) !! name = Some conn
           ∧ PooledConnection.State conn = StateConnected
           ∧ PooledConnection.DB conn = Some h)
  ∧ failedPings (pool (GetConnection env name s).2) = failedPings (pool s)
  ∧ successfulPings (pool (GetConnection env name s).2)
    = successfulPings (pool s).
Proof.
  destruct (healthy_or_unhealthy (pool s) name)
    as [(conn & h' & Hlook & Hst & Hdb) | Hun].
  - rewrite (GetConnection_fast_path env s name conn h' Hlook Hst Hdb).
    cbn [fst snd pool]. intros [= <-]. split; [|done].
    eexists. cbn. rewrite lookup_insert_eq. done.
  - rewrite (GetConnection_creation_path env _ _ Hun).
    destruct (config.GetConnection
                (config (manager (pool (touch env name s)))) name)
      as [c|] eqn:Hc.
    + destruct (createConnection_outcome env _ _ _ Hc)
        as (new & entry & tc & Hp & _ & _ & _ & _ & _ & Hr).
      intros Hok. rewrite Hok in Hr. destruct Hr as (Hst & Hdb & _).
      rewrite Hp. cbn [connections failedPings successfulPings
                       set_connections set_totalConnections].
      split; [exists entry; by rewrite lookup_insert_eq|].
      unfold touch. by destruct (connections (pool s) !! name).
    + by rewrite (createConnection_not_configured env _ _ Hc).
Qed.

(** (X10) [TestConnection] returns the error of [GetConnection] if that
    call fails, and makes no probe.  Otherwise it pings the handle once and
    returns what the ping returns; a probe that fails is reported to the
    caller only: the entry stays Connected with its handle and the pool
    counts no failed ping. *)
Theorem TestConnection_probe (s : Sys) (name : string) :
  let g := GetConnection env name s in
  (∀ e, g.1 = Err e → TestConnection env name s = (Some e, g.2))
  ∧ (∀ h, g.1 = Ok h →
       TestConnection env name s
       = (env_Ping env (tick g.2) h,
          {| pool := pool g.2;
             tick := S (tick g.2);
             trace := trace g.2 ++ [EvPing h (env_Ping env (tick g.2) h)] |})
       ∧ (∃ conn,
            connections (pool (TestConnection env name s).2) !! name
            = Some conn
            ∧ PooledConnection.State conn = StateConnected
            ∧ PooledConnection.DB conn = Some h)
       ∧ failedPings (pool (TestConnection env name s).2)
         = failedPings (pool s)).
Proof.
  intros g. subst g. split.
  - intros e He. unfold TestConnection. rewrite bind_run, He. done.
  - intros h Hh.
    assert (TestConnection env name s
            = (env_Ping env (tick (GetConnection env name s).2) h,
               {| pool := pool (GetConnection env name s).2;
                  tick := S (tick (GetConnection env name s).2);
                  trace := trace (GetConnection env name s).2
                           ++ [EvPing h
                                 (env_Ping env
                                    (tick (GetConnection env name s).2) h)] |}))
      as Hrun.
    { unfold TestConnection. rewrite bind_run, Hh. reflexivity. }
    split; [exact Hrun|]. rewrite Hrun. cbn [snd pool].
    destruct (GetConnection_Ok_entry s name h Hh) as (Hentry & Hfp & _).
    done.
Qed.

Lemma statusOf_run (conn : PooledConnection.t) (s : Sys) :
  snapshot_of (statusOf env conn s).1 conn
  ∧ ConnectionStatus.IdleTime (statusOf env conn s).1
    = Time_Sub (env_Now env (tick s)) (PooledConnection.LastUsed conn)
  ∧ ConnectionStatus.ConnectedFor (statusOf env conn s).1
    = Time_Sub (env_Now env (S (tick s))) (PooledConnection.CreatedAt conn)
  ∧ pool (statusOf env conn s).2 = pool s
  ∧ trace (statusOf env conn s).2 = trace s.
Proof. done. Qed.

Lemma statusAll_run (conns : list PooledConnection.t) (s : Sys) :
  Forall2 snapshot_of (mapM conns (statusOf env) s).1 conns
  ∧ pool (mapM conns (statusOf env) s).2 = pool s
  ∧ trace (mapM conns (statusOf env) s).2 = trace s.
Proof.
  revert s. induction conns as [|conn conns IH]; intros s; [by repeat split|].
  cbn [mapM]. rewrite !bind_run. cbn [ret fst snd].
  destruct (statusOf_run conn s) as (Hsnap & _ & _ & Hp & Ht).
  destruct (IH (statusOf env conn s).2) as (Hall & Hp' & Ht').
  split; [by constructor|]. split; congruence.
Qed.

(** (X11) The status calls only read.  [GetConnectionStatus] of a name
    that has an entry copies the name, state, timestamps and error count of
    the entry and derives the idle time from the clock and [LastUsed];
    [GetAllConnectionStatus] returns one such snapshot for each entry of
    the registry, in the order of its iteration.  Neither call changes the
    pool (asking for the status is not a use: [LastUsed] stays) nor makes
    any call to the driver. *)
Theorem status_calls_read_only (s : Sys) :
  (∀ name conn,
     connections (pool s) !! name = Some conn →
     let st := (GetConnectionStatus env name s).1 in
     snapshot_of st conn
     ∧ ConnectionStatus.IdleTime st
       = Time_Sub (env_Now env (tick s)) (PooledConnection.LastUsed conn)
     ∧ pool (GetConnectionStatus env name s).2 = pool s
     ∧ trace (GetConnectionStatus env name s).2 = trace s)
  ∧ Forall2 snapshot_of (GetAllConnectionStatus env s).1
      (env_range env (tick s) (map_to_list (connections (pool s)))).*2
  ∧ length (GetAllConnectionStatus env s).1 = size (connections (pool s))
  ∧ pool (GetAllConnectionStatus env s).2 = pool s
  ∧ trace (GetAllConnectionStatus env s).2 = trace s.
Proof.
  split.
  - intros name conn Hlook st. subst st.
    unfold GetConnectionStatus. rewrite bind_run. cbn [get_pool fst snd].
    rewrite Hlook. destruct (statusOf_run conn s) as (? & ? & _ & ? & ?).
    done.
  - unfold GetAllConnectionStatus. rewrite bind_run.
    match goal with
    | |- context [mapM ?conns _ ?st] =>
        destruct (statusAll_run conns st) as (Hall & Hp & Ht)
    end.
    split; [exact Hall|]. split; [|by split].
    rewrite (Forall2_length _ _ _ Hall), length_fmap.
    cbn. by rewrite env_range_perm, length_map_to_list.
Qed.

End MoreProperties.

(** ** Properties of the credential manager *)

Section CredentialProperties.

Context (kc : credentials.Keychain).

Import credentials.

(** A fresh entry of the cache answers [Get]: the keychain is not read. *)
Lemma Get_hit (w : World) (connectionName username : string)
    (cached : cachedCredential) :
  cache (mgr w) !! cacheKey connectionName username = Some cached →
  Time_Sub (kc_Now kc (clock w)) (timestamp cached) < cacheTime (mgr w) →
  Get kc connectionName username w
  = (Ok {| cred_Username := username; cred_Password := password cached |},
     called w []).
Proof.
  intros Hlook Hfresh. unfold Get. rewrite Hlook. cbn [called mgr].
  by rewrite (bool_decide_eq_true_2 _ Hfresh).
Qed.

(** Without a fresh entry [Get] reads the keychain, once. *)
Lemma Get_miss (w : World) (connectionName username : string) :
  ¬ fresh (mgr w) (cacheKey connectionName username) (kc_Now kc (clock w)) →
  let key := cacheKey connectionName username in
  let res := (Get kc connectionName username w).1 in
  let w' := (Get kc connectionName username w).2 in
  ∃ r,
    calls w' = calls w ++ [KGet key r]
    ∧ match r with
      | Ok secret =>
          res = Ok {| cred_Username := username; cred_Password := secret |}
          ∧ mgr w'
            = set_cache (mgr w)
                (<[key := {| password := secret;
                             timestamp := kc_Now kc (Nat.pred (clock w')) |}]>
                   (cache (mgr w)))
      | Err err =>
          res = Err (Errorf_w "failed to retrieve credential" err)
          ∧ mgr w' = mgr w
      end.
Proof.
  intros Hstale key res w'. subst key res w'. unfold Get.
  destruct (cache (mgr w) !! cacheKey connectionName username)
    as [cached|] eqn:Hlook.
  - cbn [called mgr]. case_bool_decide as Hage.
    { destruct Hstale. by exists cached. }
    cbn [called clock calls mgr].
    destruct (kc_Get kc (S (clock w)) (cacheKey connectionName username))
      as [secret|err] eqn:Hget; eexists;
      cbn [fst snd called set_mgr clock calls mgr set_cache Nat.pred];
      rewrite ?app_nil_r; (split; [reflexivity|]); done.
  - destruct (kc_Get kc (clock w) (cacheKey connectionName username))
      as [secret|err] eqn:Hget; eexists;
      cbn [fst snd called set_mgr clock calls mgr set_cache Nat.pred];
      rewrite ?app_nil_r; (split; [reflexivity|]); done.
Qed.

(** (X12) A password that [Store] has put in the keychain is served from
    the cache: a [Get] that follows within the cache time, for the same
    connection and user or for any pair with the same cache key, returns
    that password under the user name of the [Get], and makes no call to
    the keychain. *)
Theorem Store_then_Get (w : World)
    (connectionName username secret connectionName' username' : string) :
  kc_Set kc (clock w) ServiceName (cacheKey connectionName username) secret
  = None →
  cacheKey connectionName' username' = cacheKey connectionName username →
  let w1 := (Store kc connectionName username secret w).2 in
  Time_Sub (kc_Now kc (clock w1)) (kc_Now kc (S (clock w)))
  < cacheTime (mgr w) →
  (Store kc connectionName username secret w).1 = None
  ∧ (Get kc connectionName' username' w1).1
    = Ok {| cred_Username := username'; cred_Password := secret |}
  ∧ calls (Get kc connectionName' username' w1).2 = calls w1
  ∧ mgr (Get kc connectionName' username' w1).2 = mgr w1.
Proof.
  intros Hset Hkey w1 Hfresh. subst w1. unfold Store in *.
  rewrite Hset in *.
  cbn [fst snd called set_mgr mgr clock calls set_cache cache cacheTime]
    in *.
  split; [done|].
  rewrite (Get_hit _ connectionName' username'
             {| password := secret; timestamp := kc_Now kc (S (clock w)) |}).
  - cbn [fst snd called set_mgr mgr clock calls set_cache cache cacheTime
         password].
    rewrite !app_nil_r. done.
  - cbn [mgr set_mgr set_cache cache]. rewrite Hkey. apply lookup_insert_eq.
  - exact Hfresh.
Qed.

(** (X13) When the cache has no entry younger than the cache time for the
    key, [Get] reads the keychain exactly once.  A password it obtains is
    returned and cached with the time of the call; a failure is returned
    wrapped and leaves the cache as it was, an expired entry included.  An
    entry whose age equals the cache time counts as expired. *)
Theorem Get_reads_keychain (w : World) (connectionName username : string) :
  let key := cacheKey connectionName username in
  (∀ cached, cache (mgr w) !! key = Some cached →
             cacheTime (mgr w)
             ≤ Time_Sub (kc_Now kc (clock w)) (timestamp cached)) →
  let res := (Get kc connectionName username w).1 in
  let w' := (Get kc connectionName username w).2 in
  ∃ r,
    calls w' = calls w ++ [KGet key r]
    ∧ match r with
      | Ok secret =>
          res = Ok {| cred_Username := username; cred_Password := secret |}
          ∧ mgr w'
            = set_cache (mgr w)
                (<[key := {| password := secret;
                             timestamp := kc_Now kc (Nat.pred (clock w')) |}]>
                   (cache (mgr w)))
      | Err err =>
          res = Err (Errorf_w "failed to retrieve credential" err)
          ∧ mgr w' = mgr w
      end.
Proof.
  intros key Hold. apply Get_miss.
  intros (cached & Hlook & Hage). specialize (Hold cached Hlook). lia.
Qed.

(** (X14) [Delete] and [ClearCache] take effect on the next [Get].  After
    a [Delete] that the keychain accepts, and after a [ClearCache], [Get]
    reads the keychain again, however recent the cached password was.  A
    [Delete] that the keychain refuses returns the failure wrapped and
    leaves the cache as it was. *)
Theorem Delete_and_ClearCache (w : World) (connectionName username : string) :
  let key := cacheKey connectionName username in
  let d := Delete kc connectionName username w in
  (kc_Delete kc (clock w) ServiceName key = None →
   d.1 = None
   ∧ cache (mgr d.2) = delete key (cache (mgr w))
   ∧ ∃ r, calls (Get kc connectionName username d.2).2
          = calls d.2 ++ [KGet key r])
  ∧ (∀ err,
       kc_Delete kc (clock w) ServiceName key = Some err →
       d.1 = Some (Errorf_w "failed to delete credential from keychain" err)
       ∧ mgr d.2 = mgr w)
  ∧ ∃ r, calls (Get kc connectionName username (ClearCache w)).2
         = calls (ClearCache w) ++ [KGet key r].
Proof.
  intros key d. subst key d. unfold Delete. split; [|split].
  - intros ->. cbn [fst snd set_mgr mgr set_cache cache].
    split; [done|]. split; [done|].
    match goal with
    | |- context [Get kc _ _ ?w1] =>
        destruct (Get_miss w1 connectionName username) as (r & Hr & _)
    end.
    + intros (cached & Hlook & _). cbn in Hlook.
      by rewrite lookup_delete_eq in Hlook.
    + by exists r.
  - by intros err ->.
  - destruct (Get_miss (ClearCache w) connectionName username)
      as (r & Hr & _).
    + intros (cached & Hlook & _). cbn in Hlook.
      by rewrite lookup_empty in Hlook.
    + by exists r.
Qed.

End CredentialProperties.

(** (X15) The key under which the keychain and the cache hold a password
    tells the connection and the user apart as long as connection names
    have no colon in them. *)
Theorem cacheKey_injective
    (connectionName username connectionName' username' : string) :
  has_colon connectionName = false →
  has_colon connectionName' = false →
  credentials.cacheKey connectionName username
  = credentials.cacheKey connectionName' username' →
  connectionName = connectionName' ∧ username = username'.
Proof.
  unfold credentials.cacheKey.
  revert connectionName'.
  induction connectionName as [|a c IH]; intros [|a' c'] Hc Hc' Hkey;
    cbn in *.
  - injection Hkey as Hu. by subst.
  - injection Hkey as Ha _. subst a'. cbv in Hc'. discriminate Hc'.
  - injection Hkey as Ha _. subst a. cbv in Hc. discriminate Hc.
  - injection Hkey as Ha Hkey. subst a'.
    apply orb_false_iff in Hc as [_ Hc]. apply orb_false_iff in Hc' as [_ Hc'].
    destruct (IH c' Hc Hc' Hkey) as [-> ->]. done.
Qed.

(** ** Properties of the configuration and of the row limit *)

(** (X16) [AddConnection] and [RemoveConnection] change the connections of
    the configuration in memory whether or not [Save] then succeeds, and
    return the error of [Save].  After [AddConnection] the name is found
    with the connection given and is listed by [ListConnections]; after
    [RemoveConnection] it is not found; the other names are untouched, and
    removing a name just added, that was not there before, gives back the
    configuration. *)
Theorem config_connections_round_trip (save : config.Config → option error)
    (c : config.Config) (name : string) (conn : config.Connection) :
  let added := config_AddConnection save c name conn in
  let removed := config_RemoveConnection save (added.1) name in
  config.GetConnection (added.1) name = Some conn
  ∧ (added.2) = save (added.1)
  ∧ (∀ other, other ≠ name →
       config.GetConnection (added.1) other = config.GetConnection c other)
  ∧ config.GetConnection (removed.1) name = None
  ∧ (removed.2) = save (removed.1)
  ∧ (∀ other, other ≠ name →
       config.GetConnection (removed.1) other = config.GetConnection c other)
  ∧ (config.GetConnection c name = None → (removed.1) = c)
  ∧ (∀ order, (∀ l, order l ≡ₚ l) →
       name ∈ config_ListConnections order (added.1)
       ∧ (name ∉ config_ListConnections order (removed.1))
       ∧ NoDup (config_ListConnections order (added.1))).
Proof.
  intros added removed. subst added removed.
  unfold config_AddConnection, config_RemoveConnection, config.GetConnection,
    config_ListConnections, config_set_Connections.
  cbn [fst snd config.Connections config.Settings_].
  split; [apply lookup_insert_eq|]. split; [done|].
  split; [intros other Hne; by rewrite lookup_insert_ne|].
  split; [apply lookup_delete_eq|]. split; [done|].
  split.
  { intros other Hne.
    rewrite lookup_delete_ne by done. by rewrite lookup_insert_ne. }
  split.
  { intros Hnone. rewrite delete_insert_id by done. by destruct c. }
  intros order Hperm. rewrite !Hperm. split; [|split].
  - apply list_elem_of_fmap. exists (name, conn). split; [done|].
    apply elem_of_map_to_list, lookup_insert_eq.
  - intros Hin. apply list_elem_of_fmap in Hin as ([n x] & -> & Hin).
    apply elem_of_map_to_list in Hin. cbn in Hin.
    by rewrite lookup_delete_eq in Hin.
  - apply NoDup_fst_map_to_list.
Qed.

(** (X17) The row limit [getTableSample] passes to the backend never
    exceeds 100 nor the configured maximum of rows.  A requested limit
    between 1 and 100 that the maximum allows is passed unchanged; without
    a requested limit the default is 3, or the maximum if that is smaller.
    No lower bound is enforced: a negative limit below the maximum is
    passed on as it is. *)
Theorem sampleLimit_bounds (argsLimit maxRows : Z) :
  sampleLimit argsLimit maxRows ≤ 100
  ∧ sampleLimit argsLimit maxRows ≤ maxRows
  ∧ (1 ≤ argsLimit ≤ 100 → argsLimit ≤ maxRows →
     sampleLimit argsLimit maxRows = argsLimit)
  ∧ (argsLimit = 0 → sampleLimit argsLimit maxRows = Z.min 3 maxRows)
  ∧ (argsLimit < 0 → argsLimit ≤ maxRows →
     sampleLimit argsLimit maxRows = argsLimit).
Proof.
  unfold sampleLimit. cbn zeta.
  repeat case_bool_decide; repeat split; intros; lia.
Qed.

(** ** The further properties, on the concrete installation *)

(** A monitor ping that fails once, below the maximum of 3 errors: the
    entry goes to Error and keeps handle 3. *)
Lemma checkConnection_transitions_witness :
  let env := demoEnv never (at_tick 6) in
  let s1 := (GetConnection env "db" (demoStart 3)).2 in
  let conn := demoEntry "db" (Some 3%nat) StateConnected
                (1 * second) (5 * second) 0 0 in
  let err := errors_New "bad connection" in
  connections (pool s1) !! "db" = Some conn
  ∧ PooledConnection.DB conn = Some 3%nat
  ∧ PooledConnection.State conn ≠ StateError
  ∧ env_Ping env (tick s1) 3%nat = Some err
  ∧ int_incr (PooledConnection.ErrorCount conn) < maxErrorCount (pool s1)
  ∧ PooledConnection.State (checkConnection env conn s1).1 = StateError
  ∧ PooledConnection.DB (checkConnection env conn s1).1 = Some 3%nat
  ∧ PooledConnection.ErrorCount (checkConnection env conn s1).1 = 1
  ∧ failedPings (pool (checkConnection env conn s1).2) = 1
  ∧ trace (checkConnection env conn s1).2
    = trace s1 ++ [EvPing 3%nat (Some err)].
Proof.
  intros env s1 conn err.
  assert (PooledConnection.State conn ≠ StateError) as Hst by discriminate.
  assert (env_Ping env (tick s1) 3%nat = Some err) as Hping
    by (vm_compute; reflexivity).
  assert (int_incr (PooledConnection.ErrorCount conn)
          < maxErrorCount (pool s1)) as Hlt
    by (vm_compute; reflexivity).
  split; [vm_compute; reflexivity|]. split; [reflexivity|].
  split; [exact Hst|]. split; [exact Hping|]. split; [exact Hlt|].
  destruct (proj2 (checkConnection_transitions env conn s1 3%nat
                     eq_refl Hst) err Hping Hlt)
    as (Hs & Hdb & Hec & _ & Hfp & _ & Htr).
  split; [exact Hs|]. split; [exact Hdb|]. split; [exact Hec|].
  split; [exact Hfp|]. exact Htr.
Defined.

(** After one creation and one round of the monitor with a failing ping,
    the entry of [db] is in state Error with one error and its handle. *)
Lemma reachable_entries_shaped_witness :
  let s1 := (GetConnection flakyEnv "db" (demoStart 3)).2 in
  let s2 := (healthCheck flakyEnv s1).2 in
  let conn := demoEntry "db" (Some 3%nat) StateError
                (1 * second) (5 * second) 1 0 in
  reachable flakyEnv s2
  ∧ connections (pool s2) !! "db" = Some conn
  ∧ entry_shape (pool s2) "db" conn
  ∧ PooledConnection.State conn ≠ StateConnecting
  ∧ PooledConnection.State conn ≠ StateIdle
  ∧ 0 ≤ PooledConnection.ErrorCount conn ≤ 1.
Proof.
  intros s1 s2 conn.
  assert (reachable flakyEnv s2) as Hreach.
  { apply (reachable_step flakyEnv s1).
    - apply (reachable_step flakyEnv (demoStart 3)).
      + apply reachable_init.
      + apply step_GetConnection.
    - apply step_monitor. reflexivity. }
  assert (connections (pool s2) !! "db" = Some conn) as Hlook
    by (vm_compute; reflexivity).
  split; [exact Hreach|]. split; [exact Hlook|].
  exact (reachable_entries_shaped flakyEnv s2 "db" conn Hreach Hlook).
Defined.

(** The entry of [db] is in state Error and holds handle 3.  The next
    [GetConnection] opens handle 14, fails its first ping and closes
    handle 14; handle 3 is not closed. *)
Lemma GetConnection_closes_only_its_own_witness :
  let env := demoEnv never (fun k => Nat.eqb k 7 || Nat.eqb k 15) in
  let s1 := (GetConnection env "db" (demoStart 3)).2 in
  let s2 := (healthCheck env s1).2 in
  let err := errors_New "bad connection" in
  let new :=
    [EvGet "db" "reader"
       (Ok {| cred_Username := "reader"; cred_Password := "secret" |});
     EvOpen "mysql" "reader:secret@tcp(localhost:3306)/app" (Ok 14%nat);
     EvConfigure 14%nat (900 * second);
     EvPing 14%nat (Some err);
     EvClose 14%nat None] in
  connections (pool s2) !! "db"
  = Some (demoEntry "db" (Some 3%nat) StateError
            (1 * second) (5 * second) 1 0)
  ∧ trace (GetConnection env "db" s2).2 = trace s2 ++ new
  ∧ EvClose 14%nat None ∈ new
  ∧ (tick s2 ≤ 14)%nat
  ∧ (∃ driverName dsn, EvOpen driverName dsn (Ok 14%nat) ∈ new)
  ∧ ∃ cause, (GetConnection env "db" s2).1
             = Err (Errorf_w "failed to ping database" cause).
Proof.
  intros env s1 s2 err new.
  assert (trace (GetConnection env "db" s2).2 = trace s2 ++ new) as Htr
    by (vm_compute; reflexivity).
  assert (EvClose 14%nat None ∈ new) as Hin
    by (repeat first [apply list_elem_of_here | apply list_elem_of_further]).
  split; [vm_compute; reflexivity|].
  split; [exact Htr|]. split; [exact Hin|].
  exact (GetConnection_closes_only_its_own env s2 "db" new 14%nat None
           Htr Hin).
Defined.

(** A connection of a type the manager has no driver for: the credentials
    are fetched, nothing is opened, and the error names the type. *)
Lemma createRawConnection_first_failure_witness :
  let c := {| config.Type_ := "oracle";
              config.Host := "localhost";
              config.Port := 1521;
              config.Database := "app";
              config.SSLMode := "";
              config.Username := "reader" |} in
  let s := demoStart 3 in
  let new :=
    [EvGet "db" "reader"
       (Ok {| cred_Username := "reader"; cred_Password := "secret" |})] in
  trace (createRawConnection upEnv c "db" s).2 = trace s ++ new
  ∧ pool (createRawConnection upEnv c "db" s).2 = pool s
  ∧ Forall (fun ev => match ev with EvOpen _ _ _ => False | _ => True end)
      new
  ∧ (createRawConnection upEnv c "db" s).1
    = Err (Errorf_w "failed to build connection string"
             (errors_New "unsupported database type: oracle")).
Proof.
  intros c s new.
  assert (trace (createRawConnection upEnv c "db" s).2 = trace s ++ new)
    as Htr by (vm_compute; reflexivity).
  split; [exact Htr|].
  destruct (createRawConnection_first_failure upEnv c "db" s new Htr)
    as (Hpool & _ & _ & Hty).
  destruct Hty as [Hno Hr]; [discriminate | discriminate |].
  split; [exact Hpool|]. split; [exact Hno|].
  apply Hr. intros username cause Hin.
  apply elem_of_cons in Hin as [Hin | Hin]; [discriminate Hin|].
  by apply elem_of_nil in Hin.
Defined.

(** A password stored for connection [a:b] and user [c] is served, a
    second later, to a [Get] for connection [a] and user [b:c]: both have
    the key [a:b:c]. *)
Lemma Store_then_Get_witness :
  let w1 := (credentials.Store demoKeychain "a:b" "c" "pw" demoWorld).2 in
  credentials.kc_Set demoKeychain (credentials.clock demoWorld)
    credentials.ServiceName (credentials.cacheKey "a:b" "c") "pw" = None
  ∧ credentials.cacheKey "a" "b:c" = credentials.cacheKey "a:b" "c"
  ∧ Time_Sub (credentials.kc_Now demoKeychain (credentials.clock w1))
      (credentials.kc_Now demoKeychain (S (credentials.clock demoWorld)))
    < credentials.cacheTime (credentials.mgr demoWorld)
  ∧ (credentials.Store demoKeychain "a:b" "c" "pw" demoWorld).1 = None
  ∧ (credentials.Get demoKeychain "a" "b:c" w1).1
    = Ok {| cred_Username := "b:c"; cred_Password := "pw" |}
  ∧ credentials.calls (credentials.Get demoKeychain "a" "b:c" w1).2
    = credentials.calls w1
  ∧ credentials.mgr (credentials.Get demoKeychain "a" "b:c" w1).2
    = credentials.mgr w1.
Proof.
  intros w1.
  assert (Time_Sub (credentials.kc_Now demoKeychain (credentials.clock w1))
            (credentials.kc_Now demoKeychain
               (S (credentials.clock demoWorld)))
          < credentials.cacheTime (credentials.mgr demoWorld)) as Hfresh
    by (vm_compute; reflexivity).
  split; [reflexivity|]. split; [reflexivity|]. split; [exact Hfresh|].
  exact (Store_then_Get demoKeychain demoWorld "a:b" "c" "pw" "a" "b:c"
           eq_refl eq_refl Hfresh).
Defined.

(** A password cached 400 seconds ago, under a cache time of 300 seconds,
    is not used: [Get] reads the keychain and returns what it holds. *)
Lemma Get_reads_keychain_witness :
  (∀ cached,
     credentials.cache (credentials.mgr staleWorld) !! "db:reader"
     = Some cached →
     credentials.cacheTime (credentials.mgr staleWorld)
     ≤ Time_Sub
         (credentials.kc_Now demoKeychain (credentials.clock staleWorld))
         (credentials.timestamp cached))
  ∧ credentials.cache (credentials.mgr staleWorld) !! "db:reader"
    = Some {| credentials.password := "old"; credentials.timestamp := 0 |}
  ∧ (credentials.Get demoKeychain "db" "reader" staleWorld).1
    = Ok {| cred_Username := "reader"; cred_Password := "from-keychain" |}
  ∧ ∃ r,
      credentials.calls
        (credentials.Get demoKeychain "db" "reader" staleWorld).2
      = credentials.calls staleWorld ++ [credentials.KGet "db:reader" r].
Proof.
  assert (∀ cached,
            credentials.cache (credentials.mgr staleWorld) !! "db:reader"
            = Some cached →
            credentials.cacheTime (credentials.mgr staleWorld)
            ≤ Time_Sub
                (credentials.kc_Now demoKeychain
                   (credentials.clock staleWorld))
                (credentials.timestamp cached)) as Hold.
  { intros cached Hlook. vm_compute in Hlook.
    injection Hlook as <-. vm_compute. discriminate. }
  split; [exact Hold|]. split; [vm_compute; reflexivity|].
  split; [vm_compute; reflexivity|].
  destruct (Get_reads_keychain demoKeychain staleWorld "db" "reader" Hold)
    as (r & Hcalls & _).
  exists r. exact Hcalls.
Defined.

(** Two keys that are equal, with colon-free connection names. *)
Lemma cacheKey_injective_witness :
  has_colon "db" = false
  ∧ credentials.cacheKey "db" "team:reader"
    = credentials.cacheKey "db" "team:reader"
  ∧ "db"%string = "db"%string
  ∧ "team:reader"%string = "team:reader"%string.
Proof.
  split; [reflexivity|]. split; [reflexivity|].
  exact (cacheKey_injective "db" "team:reader" "db" "team:reader"
           eq_refl eq_refl eq_refl).
Defined.
